(** * ACPI table discovery of gopher-os: a shallow embedding

    The development follows the package [gopheros/device/acpi]: the
    checksum validator [validTable], the page reservation mapper
    [mapRegion], the table mapper [mapACPITable], the root table walker
    [parseRSDT] with its session wrapper [DriverInit], the root pointer
    locator [locateRSDT] and the probe function [probeForACPI].

    Machine integers are integers of [Z] with the wrap-around of their
    width written out; physical memory is a total function from
    addresses to bytes; the external primitives ([vmm.Map], [vmm.Unmap],
    [allocator.ReclaimRegions], [kfmt.Fprintf]) are recorded as events
    of a trace, their outcome being an arbitrary function of the trace
    so far. *)

From Stdlib Require Import ZArith Lia Bool List.
From Stdlib.Strings Require Import Byte.
From stdpp Require Import base tactics option list gmap sets.
Import ListNotations.
Local Open Scope Z_scope.

(* [set_solver] clears hypotheses that may already be gone. *)
#[local] Set Warnings "-clear-no-such-hyp".

(** ** Machine integers *)

Definition wrap8 (z : Z) : Z := z mod 2 ^ 8.
Definition wrap32 (z : Z) : Z := z mod 2 ^ 32.
(** [uintptr], [uint64] and [mem.Size] are 64 bits wide on amd64. *)
Definition wrap64 (z : Z) : Z := z mod 2 ^ 64.

(** ** Physical memory *)

Definition Memory : Type := Z -> byte.

Definition byteZ (b : byte) : Z := Z.of_N (Byte.to_N b).

(** A [uint8] read through a pointer to address [p]. *)
Definition load8 (m : Memory) (p : Z) : Z := byteZ (m p).

(** Little-endian read of [n] bytes starting at [p]. *)
Fixpoint loadLE (m : Memory) (n : nat) (p : Z) : Z :=
  match n with
  | O => 0
  | S n' => load8 m p + 2 ^ 8 * loadLE m n' (wrap64 (p + 1))
  end.

(** The [uint32] and [uint64] reads through a pointer to address [p]. *)
Definition load32 (m : Memory) (p : Z) : Z := loadLE m 4 p.
Definition load64 (m : Memory) (p : Z) : Z := loadLE m 8 p.

(** The bytes [p, p+n) as a list (a Go array field read in place). *)
Fixpoint loadBytes (m : Memory) (n : nat) (p : Z) : list byte :=
  match n with
  | O => []
  | S n' => m p :: loadBytes m n' (wrap64 (p + 1))
  end.

(** Memory that differs from [m] in the byte at [a] only. *)
Definition store8 (m : Memory) (a : Z) (b : byte) : Memory :=
  fun x => if x =? a then b else m x.

(** ** Constants and structure layouts (part_001) *)

Definition rsdpLocationLow : Z := 0xe0000.
Definition rsdpLocationHi : Z := 0xfffff.
Definition rsdpRevisionACPI1 : Z := 0.

(** The eight characters R S D space P T R space. *)
Definition rsdtSignature : list byte :=
  [x52; x53; x44; x20; x50; x54; x52; x20].

(** Field offsets and sizes as the Go compiler lays the structures out on
    amd64.  [rsdpDescriptor]: signature 0..7, checksum 8, oemID 9..14,
    revision 15, rsdtAddr 16..19; size 20.  [rsdpDescriptor2]: the
    embedded [rsdpDescriptor] 0..19, length 20..23, xsdtAddr 24..31,
    extendedChecksum 32, reserved 33..35; the [uint64] field gives the
    structure alignment 8, so its size is rounded up to 40.  [sdtHeader]:
    signature 0..3, length 4..7, revision 8, checksum 9, oemID 10..15,
    oemTableID 16..23, oemRevision 24..27, creatorID 28..31,
    creatorRevision 32..35; size 36. *)
Module rsdpDescriptor.
Definition sizeof : Z := 20.
Definition signature (m : Memory) (p : Z) : list byte := loadBytes m 8 p.
Definition checksum (m : Memory) (p : Z) : Z := load8 m (wrap64 (p + 8)).
Definition revision (m : Memory) (p : Z) : Z := load8 m (wrap64 (p + 15)).
Definition rsdtAddr (m : Memory) (p : Z) : Z := load32 m (wrap64 (p + 16)).
End rsdpDescriptor.

Module rsdpDescriptor2.
Definition sizeof : Z := 40.
Definition length (m : Memory) (p : Z) : Z := load32 m (wrap64 (p + 20)).
Definition xsdtAddr (m : Memory) (p : Z) : Z := load64 m (wrap64 (p + 24)).
Definition extendedChecksum (m : Memory) (p : Z) : Z :=
  load8 m (wrap64 (p + 32)).
End rsdpDescriptor2.

Module sdtHeader.
Definition sizeof : Z := 36.
Definition signature (m : Memory) (p : Z) : list byte := loadBytes m 4 p.
Definition length (m : Memory) (p : Z) : Z := load32 m (wrap64 (p + 4)).
Definition checksum (m : Memory) (p : Z) : Z := load8 m (wrap64 (p + 9)).
End sdtHeader.

(** ** Checksum validator (part_001, [validTable]) *)

(** The loop [for i = 0; i < tableLength; i++ { sum += byte at tablePtr+i }]
    with [i : uint32] and [sum : uint8]; [fuel] bounds the number of
    iterations. *)
Fixpoint validTable_loop (m : Memory) (tablePtr tableLength : Z)
    (fuel : nat) (i sum : Z) : Z :=
  match fuel with
  | O => sum
  | S fuel' =>
      if i <? tableLength
      then validTable_loop m tablePtr tableLength fuel'
             (wrap32 (i + 1)) (wrap8 (sum + load8 m (wrap64 (tablePtr + i))))
      else sum
  end.

Definition validTable (m : Memory) (tablePtr tableLength : Z) : bool :=
  validTable_loop m tablePtr tableLength (Z.to_nat tableLength) 0 0 =? 0.

(** The mathematical sum of the [n] bytes at offsets [i, i+n) of the
    table at [p]; the specification side of the checksum. *)
Fixpoint byteSum (m : Memory) (p : Z) (i : Z) (n : nat) : Z :=
  match n with
  | O => 0
  | S n' => load8 m (wrap64 (p + i)) + byteSum m p (i + 1) n'
  end.

(** ** Errors, external primitives and the event trace *)

(** A [*kernel.Error] is compared by pointer identity.  The package
    declares two error values of its own; every other error value comes
    from outside the package and is identified by a number. *)
Inductive Error : Type :=
| errMissingRSDP
| errTableChecksumMismatch
| errExternal (id : Z).

#[global] Instance Error_eq_dec : EqDecision Error.
Proof. solve_decision. Defined.

(** The only page table flag the package passes to [vmm.Map]. *)
Inductive PageTableEntryFlag : Type := FlagPresent.

(** What the driver does to the outside world, in order: calls of
    [mapFn] and [unmapFn] with their outcome ([None] is Go's nil error),
    the call of [allocator.ReclaimRegions], and each line written to the
    diagnostic sink, kept as the three values the line is formatted
    from (signature, physical address, length). *)
Inductive Event : Type :=
| EvMap (page frame : Z) (flags : PageTableEntryFlag) (res : option Error)
| EvUnmap (page : Z) (res : option Error)
| EvReclaim
| EvFound (signature : list byte) (addr length : Z).

Definition Trace : Type := list Event.

(** The collaborators that are not part of the package.  [PageShift] is
    [mem.PageShift], a number of address bits; [mapFn] and [unmapFn] are the package variables
    initialised to [vmm.Map] and [vmm.Unmap], whose outcome may depend on
    everything that happened before; [rangeOrder] is the order in which
    a Go [range] loop enumerates the keys of the reservation map, which
    the language leaves unspecified. *)
Record Platform : Type := {
  PageShift : N;
  mapFn : Trace -> Z -> Z -> PageTableEntryFlag -> option Error;
  unmapFn : Trace -> Z -> option Error;
  rangeOrder : gset Z -> list Z
}.

(** Modelled from the spec: [mem.PageSize] is declared in
    gopheros/kernel/mem, which is not under src/; the size of the unit
    of page granularity, one page of [PageShift] address bits. *)
Definition PageSize (P : Platform) : Z := Z.shiftl 1 (Z.of_N (PageShift P)).

(** Modelled from the spec: [vmm.PageFromAddress] is declared in
    gopheros/kernel/mem/vmm, which is not under src/; the number of the
    page that contains an address, the address rounded down to a page
    boundary and shifted by [PageShift]. *)
Definition PageFromAddress (P : Platform) (virtAddr : Z) : Z :=
  Z.shiftr (Z.land virtAddr (wrap64 (Z.lnot (wrap64 (PageSize P - 1)))))
           (Z.of_N (PageShift P)).

(** ** The driver (part_000) *)

(** [mappedPages] is the reservation set; a nil Go map is the empty
    set (the only function that inserts, [mapRegion], is reached through
    [DriverInit], which allocates the map first). *)
Record acpiDriver : Type := {
  mappedPages : gset Z;
  rsdtAddr : Z;
  useXSDT : bool
}.

Definition withMappedPages (drv : acpiDriver) (pages : gset Z) : acpiDriver :=
  {| mappedPages := pages; rsdtAddr := rsdtAddr drv; useXSDT := useXSDT drv |}.

(** *** Page reservation mapper ([mapRegion]) *)

(** The loop [for curPage := first; curPage <= last; curPage++] of
    [mapRegion]: a page already in the reservation set is skipped, a
    failing [mapFn] returns its error at once, a mapped page is added to
    the set. *)
Fixpoint mapRegion_loop (P : Platform) (fuel : nat) (curPage lastPage : Z)
    (tr : Trace) (pages : gset Z) : Trace * gset Z * option Error :=
  match fuel with
  | O => (tr, pages, None)
  | S fuel' =>
      if curPage <=? lastPage then
        if decide (curPage ∈ pages)
        then mapRegion_loop P fuel' (wrap64 (curPage + 1)) lastPage tr pages
        else
          match mapFn P tr curPage curPage FlagPresent with
          | Some err =>
              (tr ++ [EvMap curPage curPage FlagPresent (Some err)],
               pages, Some err)
          | None =>
              mapRegion_loop P fuel' (wrap64 (curPage + 1)) lastPage
                (tr ++ [EvMap curPage curPage FlagPresent None])
                ({[curPage]} ∪ pages)
          end
      else (tr, pages, None)
  end.

(** The first and the last page of the loop of [mapRegion]. *)
Definition mapRegion_first (P : Platform) (startAddr : Z) : Z :=
  let pageSizeMinus1 := wrap64 (PageSize P - 1) in
  PageFromAddress P (Z.land startAddr (wrap64 (Z.lnot pageSizeMinus1))).

Definition mapRegion_last (P : Platform) (startAddr size : Z) : Z :=
  let pageSizeMinus1 := wrap64 (PageSize P - 1) in
  let endAddr :=
    Z.land (wrap64 (wrap64 (startAddr + size) + pageSizeMinus1))
           (wrap64 (Z.lnot pageSizeMinus1)) in
  PageFromAddress P endAddr.

Definition mapRegion (P : Platform) (drv : acpiDriver) (startAddr size : Z)
    (tr : Trace) : Trace * acpiDriver * option Error :=
  let first := mapRegion_first P startAddr in
  let last := mapRegion_last P startAddr size in
  let '(tr', pages, err) :=
    mapRegion_loop P (Z.to_nat (last - first + 1)) first last tr
      (mappedPages drv) in
  (tr', withMappedPages drv pages, err).

(** *** Table mapper ([mapACPITable]) *)

(** The header pointer is the table address itself (the header is read
    in place); the nil pointer is address 0. *)
Definition mapACPITable (P : Platform) (m : Memory) (drv : acpiDriver)
    (tableAddr : Z) (tr : Trace)
  : Trace * acpiDriver * (Z * Z * option Error) :=
  let sizeofHeader := sdtHeader.sizeof in
  match mapRegion P drv tableAddr sizeofHeader tr with
  | (tr1, drv1, Some err) => (tr1, drv1, (0, sizeofHeader, Some err))
  | (tr1, drv1, None) =>
      let header := tableAddr in
      match mapRegion P drv1 tableAddr (sdtHeader.length m header) tr1 with
      | (tr2, drv2, Some err) => (tr2, drv2, (0, sizeofHeader, Some err))
      | (tr2, drv2, None) =>
          if negb (validTable m tableAddr (sdtHeader.length m header))
          then (tr2, drv2, (0, sizeofHeader, Some errTableChecksumMismatch))
          else (tr2, drv2, (header, sizeofHeader, None))
      end
  end.

(** *** Root table walker ([parseRSDT]) *)

(** [payloadLen = header.length - uint32(sizeofHeader)], in [uint32]. *)
Definition payloadLen (length sizeofHeader : Z) : Z :=
  wrap32 (length - wrap32 sizeofHeader).

(** The number of entries of [sdtAddresses]: [payloadLen >> 3] for the
    XSDT and [payloadLen >> 2] for the RSDT. *)
Definition entryCount (useXSDT : bool) (payloadLen : Z) : Z :=
  if useXSDT then Z.shiftr payloadLen 3 else Z.shiftr payloadLen 2.

(** The loop that fills [sdtAddresses]: [n] reads of [width] bytes, the
    pointer advancing by [width] after each. *)
Fixpoint readAddresses (m : Memory) (width : nat) (n : nat) (curPtr : Z)
  : list Z :=
  match n with
  | O => []
  | S n' =>
      loadLE m width curPtr
      :: readAddresses m width n' (wrap64 (curPtr + Z.of_nat width))
  end.

Definition sdtAddresses (m : Memory) (drv : acpiDriver)
    (header sizeofHeader : Z) : list Z :=
  let n := entryCount (useXSDT drv)
             (payloadLen (sdtHeader.length m header) sizeofHeader) in
  readAddresses m (if useXSDT drv then 8%nat else 4%nat) (Z.to_nat n)
    (wrap64 (rsdtAddr drv + sizeofHeader)).

(** The loop [for _, addr := range sdtAddresses]. *)
Fixpoint parseRSDT_visit (P : Platform) (m : Memory) (addrs : list Z)
    (drv : acpiDriver) (tr : Trace) : Trace * acpiDriver * option Error :=
  match addrs with
  | [] => (tr, drv, None)
  | addr :: rest =>
      match mapACPITable P m drv addr tr with
      | (tr1, drv1, (_, _, Some err)) =>
          if decide (err = errTableChecksumMismatch)
          then parseRSDT_visit P m rest drv1 tr1
          else (tr1, drv1, Some err)
      | (tr1, drv1, (header, _, None)) =>
          parseRSDT_visit P m rest drv1
            (tr1 ++ [EvFound (sdtHeader.signature m header) addr
                             (sdtHeader.length m header)])
      end
  end.

Definition parseRSDT (P : Platform) (m : Memory) (drv : acpiDriver)
    (tr : Trace) : Trace * acpiDriver * option Error :=
  match mapACPITable P m drv (rsdtAddr drv) tr with
  | (tr1, drv1, (_, _, Some err)) => (tr1, drv1, Some err)
  | (tr1, drv1, (header, sizeofHeader, None)) =>
      parseRSDT_visit P m (sdtAddresses m drv1 header sizeofHeader) drv1 tr1
  end.

(** *** Session wrapper ([DriverInit]) *)

(** The deferred loop [for page := range drv.mappedPages]: every page is
    passed to [unmapFn]; [gotUnmapErr] remembers a failure. *)
Fixpoint unmapAll (P : Platform) (pages : list Z) (tr : Trace)
    (gotUnmapErr : bool) : Trace * bool :=
  match pages with
  | [] => (tr, gotUnmapErr)
  | page :: rest =>
      let res := unmapFn P tr page in
      unmapAll P rest (tr ++ [EvUnmap page res])
        (match res with Some _ => true | None => gotUnmapErr end)
  end.

(** The deferred function of [DriverInit]. *)
Definition DriverInit_cleanup (P : Platform) (drv : acpiDriver) (tr : Trace)
  : Trace :=
  let '(tr', gotUnmapErr) :=
    unmapAll P (rangeOrder P (mappedPages drv)) tr false in
  if negb gotUnmapErr then tr' ++ [EvReclaim] else tr'.

Definition DriverInit (P : Platform) (m : Memory) (drv : acpiDriver)
    (tr : Trace) : Trace * acpiDriver * option Error :=
  let drv0 := withMappedPages drv ∅ in
  let '(tr1, drv1, err) := parseRSDT P m drv0 tr in
  (DriverInit_cleanup P drv1 tr1, drv1, err).

(** *** Root pointer locator ([locateRSDT]) *)

(** The loop that identity-maps the scan window; it stops at the first
    failing [mapFn]. *)
Fixpoint locateRSDT_map (P : Platform) (fuel : nat) (curPage lastPage : Z)
    (tr : Trace) : Trace * option Error :=
  match fuel with
  | O => (tr, None)
  | S fuel' =>
      if curPage <=? lastPage then
        match mapFn P tr curPage curPage FlagPresent with
        | Some err =>
            (tr ++ [EvMap curPage curPage FlagPresent (Some err)], Some err)
        | None =>
            locateRSDT_map P fuel' (wrap64 (curPage + 1)) lastPage
              (tr ++ [EvMap curPage curPage FlagPresent None])
        end
      else (tr, None)
  end.

(** The deferred loop that unmaps the scan window; the result of
    [unmapFn] is dropped. *)
Fixpoint locateRSDT_unmap (P : Platform) (fuel : nat) (curPage lastPage : Z)
    (tr : Trace) : Trace :=
  match fuel with
  | O => tr
  | S fuel' =>
      if curPage <=? lastPage then
        locateRSDT_unmap P fuel' (wrap64 (curPage + 1)) lastPage
          (tr ++ [EvUnmap curPage (unmapFn P tr curPage)])
      else tr
  end.

(** The inner loop [for i, b := range rsdtSignature]: [false] as soon as
    a byte of the candidate differs. *)
Fixpoint signatureMatches (m : Memory) (sig : list byte) (p : Z) : bool :=
  match sig with
  | [] => true
  | b :: sig' =>
      if Byte.eqb (m p) b then signatureMatches m sig' (wrap64 (p + 1))
      else false
  end.

(** The loop labelled [checkNextBlock]. *)
Fixpoint locateRSDT_scan (m : Memory) (fuel : nat) (curPtr : Z)
  : Z * bool * option Error :=
  match fuel with
  | O => (0, false, Some errMissingRSDP)
  | S fuel' =>
      if curPtr <? rsdpLocationHi then
        if negb (signatureMatches m rsdtSignature curPtr)
        then locateRSDT_scan m fuel' (wrap64 (curPtr + 16))
        else if rsdpDescriptor.revision m curPtr =? rsdpRevisionACPI1 then
          if negb (validTable m curPtr (wrap32 rsdpDescriptor.sizeof))
          then locateRSDT_scan m fuel' (wrap64 (curPtr + 16))
          else (rsdpDescriptor.rsdtAddr m curPtr, false, None)
        else
          if negb (validTable m curPtr (wrap32 rsdpDescriptor2.sizeof))
          then locateRSDT_scan m fuel' (wrap64 (curPtr + 16))
          else (rsdpDescriptor2.xsdtAddr m curPtr, true, None)
      else (0, false, Some errMissingRSDP)
  end.

(** Number of pages of the scan window and of candidates in it. *)
Definition windowPages (P : Platform) : nat :=
  Z.to_nat (PageFromAddress P rsdpLocationHi
            - PageFromAddress P rsdpLocationLow + 1).

Definition windowCandidates : nat :=
  Z.to_nat ((rsdpLocationHi - rsdpLocationLow + 15) / 16).

Definition locateRSDT (P : Platform) (m : Memory) (tr : Trace)
  : Trace * (Z * bool * option Error) :=
  let first := PageFromAddress P rsdpLocationLow in
  let last := PageFromAddress P rsdpLocationHi in
  let '(tr1, res) :=
    match locateRSDT_map P (windowPages P) first last tr with
    | (tr1, Some err) => (tr1, (0, false, Some err))
    | (tr1, None) =>
        (tr1, locateRSDT_scan m windowCandidates rsdpLocationLow)
    end in
  (locateRSDT_unmap P (windowPages P) first last tr1, res).

(** *** Probe function ([probeForACPI]) *)

(** [None] is the nil driver. *)
Definition probeForACPI (P : Platform) (m : Memory) (tr : Trace)
  : Trace * option acpiDriver :=
  match locateRSDT P m tr with
  | (tr', (addr, xsdt, None)) =>
      (tr', Some {| mappedPages := ∅; rsdtAddr := addr; useXSDT := xsdt |})
  | (tr', (_, _, Some _)) => (tr', None)
  end.

(** ** Reading a trace *)

(** The pages passed to [mapFn], in call order. *)
Definition mapCalls (tr : Trace) : list Z :=
  omap (fun e => match e with EvMap p _ _ _ => Some p | _ => None end) tr.

(** The pages whose [mapFn] call succeeded. *)
Definition mappedOk (tr : Trace) : list Z :=
  omap (fun e => match e with EvMap p _ _ None => Some p | _ => None end) tr.

(** The pages passed to [unmapFn], in call order. *)
Definition unmapCalls (tr : Trace) : list Z :=
  omap (fun e => match e with EvUnmap p _ => Some p | _ => None end) tr.

(** The pages whose [unmapFn] call failed. *)
Definition unmapFailures (tr : Trace) : list Z :=
  omap (fun e => match e with EvUnmap p (Some _) => Some p | _ => None end) tr.

(** One entry per call of [allocator.ReclaimRegions]. *)
Definition reclaimCalls (tr : Trace) : list unit :=
  omap (fun e => match e with EvReclaim => Some tt | _ => None end) tr.

(** The tables reported to the diagnostic sink, in order. *)
Definition foundTables (tr : Trace) : list (list byte * Z * Z) :=
  omap (fun e => match e with EvFound s a l => Some (s, a, l) | _ => None end)
       tr.

(** The verdict of one iteration of the scan loop of [locateRSDT] on the
    candidate at [curPtr]: the values the iteration returns, or [None]
    when it continues with the next candidate. *)
Definition candidate (m : Memory) (curPtr : Z) : option (Z * bool) :=
  if negb (signatureMatches m rsdtSignature curPtr) then None
  else if rsdpDescriptor.revision m curPtr =? rsdpRevisionACPI1 then
    if negb (validTable m curPtr (wrap32 rsdpDescriptor.sizeof)) then None
    else Some (rsdpDescriptor.rsdtAddr m curPtr, false)
  else
    if negb (validTable m curPtr (wrap32 rsdpDescriptor2.sizeof)) then None
    else Some (rsdpDescriptor2.xsdtAddr m curPtr, true).

(** The address of the [k]-th candidate of the scan window. *)
Definition candidateAddr (k : Z) : Z := rsdpLocationLow + 16 * k.

(** The pair [(tr', drv')] is reached from [(tr, drv)] by appending the
    events [ev], none of which releases anything: the reservation set
    has grown by exactly the pages that [ev] mapped successfully, and the
    other fields of the driver are unchanged. *)
Definition reserves (tr : Trace) (drv : acpiDriver) (tr' : Trace)
    (drv' : acpiDriver) (ev : Trace) : Prop :=
  tr' = tr ++ ev
  /\ mappedPages drv' = list_to_set (mappedOk ev) ∪ mappedPages drv
  /\ rsdtAddr drv' = rsdtAddr drv
  /\ useXSDT drv' = useXSDT drv
  /\ unmapCalls ev = []
  /\ reclaimCalls ev = [].

(** Every [mapFn] call of [ev] maps a page to the frame of the same
    number. *)
Definition identityMapped (ev : Trace) : Prop :=
  Forall (fun e => match e with EvMap p f _ _ => f = p | _ => True end) ev.

(** No page is mapped successfully twice in [ev], nor when it already
    was in [pages]. *)
Definition mapsOnce (pages : gset Z) (ev : Trace) : Prop :=
  NoDup (mappedOk ev) /\ forall p, p ∈ mappedOk ev -> p ∉ pages.

(** A step of a session that only reserves, maps by identity and maps
    no page twice. *)
Definition disciplined (tr : Trace) (drv : acpiDriver) (tr' : Trace)
    (drv' : acpiDriver) (ev : Trace) : Prop :=
  reserves tr drv tr' drv' ev
  /\ identityMapped ev
  /\ mapsOnce (mappedPages drv) ev.

(** ** Concrete machines and memory images used in the examples *)

(** A machine with 4 KiB pages whose mapping primitives always succeed. *)
Definition vmmOk : Platform := {|
  PageShift := 12%N;
  mapFn := fun _ _ _ _ => None;
  unmapFn := fun _ _ => None;
  rangeOrder := elements
|}.

(** A machine with 4 KiB pages on which every [mapFn] call fails with an
    error of the virtual memory manager. *)
Definition vmmMapFails : Platform := {|
  PageShift := 12%N;
  mapFn := fun _ _ _ _ => Some (errExternal 7);
  unmapFn := fun _ _ => None;
  rangeOrder := elements
|}.

(** A machine with 4 KiB pages on which unmapping page 1 fails. *)
Definition vmmUnmapFails : Platform := {|
  PageShift := 12%N;
  mapFn := fun _ _ _ _ => None;
  unmapFn := fun _ page => if page =? 1 then Some (errExternal 9) else None;
  rangeOrder := elements
|}.

(** A machine with 4 KiB pages on which every [unmapFn] call fails. *)
Definition vmmUnmapAlwaysFails : Platform := {|
  PageShift := 12%N;
  mapFn := fun _ _ _ _ => None;
  unmapFn := fun _ _ => Some (errExternal 9);
  rangeOrder := elements
|}.

Definition byteOfZ (z : Z) : byte :=
  match Byte.of_N (Z.to_N z) with Some b => b | None => x00 end.

(** Memory holding [bs] at [base] and zero everywhere else. *)
Definition memOfBytes (base : Z) (bs : list Z) : Memory :=
  fun a =>
    if (base <=? a) && (a <? base + Z.of_nat (List.length bs))
    then byteOfZ (nth (Z.to_nat (a - base)) bs 0) else x00.

Definition memZero : Memory := fun _ => x00.

(** The first 20 bytes of a root pointer: signature, checksum, OEM id,
    revision and the 32-bit root table address 0x1000. *)
Definition rsdpV1Bytes (checksum revision : Z) : list Z :=
  [0x52; 0x53; 0x44; 0x20; 0x50; 0x54; 0x52; 0x20;
   checksum; 0; 0; 0; 0; 0; 0; revision; 0x00; 0x10; 0; 0].

(** An ACPI 1.0 root pointer (revision 0) with a valid checksum. *)
Definition memRsdpV1 : Memory :=
  memOfBytes rsdpLocationLow (rsdpV1Bytes 0xd1 0).

(** A revision 2 root pointer of declared length 36, extended root
    address 0x2000, both checksums valid and zero bytes after it. *)
Definition memRsdpV2 : Memory :=
  memOfBytes rsdpLocationLow
    (rsdpV1Bytes 0xcf 2 ++ [36; 0; 0; 0; 0x00; 0x20; 0; 0; 0; 0; 0; 0;
                            0xbc; 0; 0; 0; 0; 0; 0; 0]).

(** The root pointer of [memRsdpV2], whose 36 declared bytes sum to
    zero, followed by a non-zero byte at offset 36. *)
Definition memRsdpV2Tail : Memory :=
  memOfBytes rsdpLocationLow
    (rsdpV1Bytes 0xcf 2 ++ [36; 0; 0; 0; 0x00; 0x20; 0; 0; 0; 0; 0; 0;
                            0xbc; 0; 0; 0; 1; 0; 0; 0]).

(** The ACPI 1.0 root pointer of [memRsdpV1] placed at the last
    candidate address 0xffff0: its root address field occupies
    0x100000..0x100003, past the end of the scan window. *)
Definition memRsdpAtEnd : Memory :=
  memOfBytes 0xffff0 (rsdpV1Bytes 0xd1 0).

(** [memRsdpAtEnd] with the byte at 0x100001 changed. *)
Definition memRsdpAtEndChanged : Memory :=
  store8 memRsdpAtEnd 0x100001 x11.

Definition emptyDriver (addr : Z) (xsdt : bool) : acpiDriver :=
  {| mappedPages := ∅; rsdtAddr := addr; useXSDT := xsdt |}.

(** A 36-byte table header with the given signature, length (below 256)
    and checksum byte, revision 1 and zeros in the other fields. *)
Definition sdtHeaderBytes (sig : list Z) (length checksum : Z) : list Z :=
  sig ++ [length; 0; 0; 0; 1; checksum] ++ repeat 0 26%nat.

(** Memory with a root table at 0x1000 whose payload is [entries], an
    APIC table with a wrong checksum at 0x1040 and a valid FACP table at
    0x1080. *)
Definition memTables (rootSig : list Z) (rootLength rootChecksum : Z)
    (entries : list Z) : Memory :=
  let root := sdtHeaderBytes rootSig rootLength rootChecksum ++ entries in
  memOfBytes 0x1000
    (root ++ repeat 0 (64 - List.length root)
     ++ sdtHeaderBytes [0x41; 0x50; 0x49; 0x43] 36 0x00 ++ repeat 0 28%nat
     ++ sdtHeaderBytes [0x46; 0x41; 0x43; 0x50] 36 0xc1).

(** The root table as an RSDT: two 32-bit entries, 0x1040 and 0x1080. *)
Definition memRsdt : Memory :=
  memTables [0x52; 0x53; 0x44; 0x54] 44 0xb6
    [0x40; 0x10; 0; 0; 0x80; 0x10; 0; 0].

(** The root table as an XSDT: two 64-bit entries, 0x1040 and 0x1080;
    its length is the header size plus 16. *)
Definition memXsdt : Memory :=
  memTables [0x58; 0x53; 0x44; 0x54] 52 0xa8
    [0x40; 0x10; 0; 0; 0; 0; 0; 0; 0x80; 0x10; 0; 0; 0; 0; 0; 0].

(** The driver and the trace once the root table at 0x1000 is mapped:
    pages 1 and 2 are reserved. *)
Definition driverAfterRoot (xsdt : bool) : acpiDriver :=
  {| mappedPages := {[1; 2]}; rsdtAddr := 0x1000; useXSDT := xsdt |}.

Definition traceAfterRoot : Trace :=
  [EvMap 1 1 FlagPresent None; EvMap 2 2 FlagPresent None].

(** *** Facts about bytes and the checksum loop *)

Lemma byteZ_range (b : byte) : 0 <= byteZ b < 256.
Proof.
  unfold byteZ. pose proof (Byte.to_N_bounded b) as H. lia.
Qed.

Lemma byteZ_inj (a b : byte) : byteZ a = byteZ b -> a = b.
Proof.
  unfold byteZ. intros H. apply N2Z.inj in H.
  apply (f_equal Byte.of_N) in H. rewrite !Byte.of_to_N in H. congruence.
Qed.

Lemma load8_range (m : Memory) (p : Z) : 0 <= load8 m p < 256.
Proof. apply byteZ_range. Qed.

Lemma validTable_loop_sum (m : Memory) (p len : Z) :
  forall (fuel : nat) (i s : Z),
    0 <= i -> i + Z.of_nat fuel = len -> len < 2 ^ 32 ->
    validTable_loop m p len fuel i s
    = if (0 <? Z.of_nat fuel) then (s + byteSum m p i fuel) mod 2 ^ 8 else s.
Proof.
  induction fuel as [|fuel IH]; intros i s Hi Hlen Hlt; [reflexivity|].
  cbn [validTable_loop byteSum].
  replace (i <? len) with true by (symmetry; apply Z.ltb_lt; lia).
  replace (0 <? Z.of_nat (S fuel)) with true by (symmetry; apply Z.ltb_lt; lia).
  assert (Hw : wrap32 (i + 1) = i + 1).
  { unfold wrap32. apply Z.mod_small. lia. }
  rewrite Hw, IH by lia.
  unfold wrap8. destruct (0 <? Z.of_nat fuel) eqn:Hf.
  - rewrite Zplus_mod_idemp_l. f_equal. lia.
  - apply Z.ltb_ge in Hf. assert (fuel = O) by lia. subst fuel.
    cbn [byteSum]. f_equal. lia.
Qed.

Lemma byteSum_store8 (m : Memory) (p k : Z) (b : byte) :
  forall (n : nat) (i : Z),
    0 <= i -> i + Z.of_nat n <= 2 ^ 64 -> 0 <= k < 2 ^ 64 ->
    byteSum (store8 m (wrap64 (p + k)) b) p i n
    = byteSum m p i n
      + (if (i <=? k) && (k <? i + Z.of_nat n)
         then byteZ b - load8 m (wrap64 (p + k)) else 0).
Proof.
  induction n as [|n IH]; intros i Hi Hn Hk.
  - cbn [byteSum]. replace (k <? i + Z.of_nat 0) with (k <? i) by (f_equal; lia).
    destruct (i <=? k) eqn:E1, (k <? i) eqn:E2; cbn; try lia.
  - cbn [byteSum]. rewrite IH by lia.
    unfold load8 at 1, store8 at 1.
    destruct (wrap64 (p + i) =? wrap64 (p + k)) eqn:E.
    + apply Z.eqb_eq in E. assert (i = k).
      { unfold wrap64 in E. Z.div_mod_to_equations. lia. }
      subst k.
      replace (i + 1 <=? i) with false by (symmetry; apply Z.leb_gt; lia).
      replace (i <=? i) with true by (symmetry; apply Z.leb_le; lia).
      replace (i <? i + Z.of_nat (S n)) with true
        by (symmetry; apply Z.ltb_lt; lia).
      cbn. unfold load8. lia.
    + apply Z.eqb_neq in E. assert (i <> k) by congruence.
      fold (load8 m (wrap64 (p + i))).
      destruct (i + 1 <=? k) eqn:E1, (i <=? k) eqn:E2; try lia; cbn.
      * replace (k <? i + 1 + Z.of_nat n) with (k <? i + Z.of_nat (S n))
          by (f_equal; lia). lia.
      * lia.
Qed.

Lemma validTable_byteSum (m : Memory) (p len : Z) :
  0 <= len < 2 ^ 32 ->
  validTable m p len = true <-> byteSum m p 0 (Z.to_nat len) mod 2 ^ 8 = 0.
Proof.
  intros Hlen. unfold validTable.
  rewrite (validTable_loop_sum m p len) by lia.
  destruct (0 <? Z.of_nat (Z.to_nat len)) eqn:E.
  - rewrite Z.eqb_eq. reflexivity.
  - apply Z.ltb_ge in E. assert (Z.to_nat len = O) by lia.
    rewrite H. cbn. tauto.
Qed.

(** C7: [validTable] returns true exactly when the bytes of
    [tablePtr, tablePtr + tableLength), added up in an 8-bit unsigned
    accumulator, give zero; it is a total function of the memory and its
    two arguments, so it has no effect and signals no error.  On a range
    it accepts, giving any single byte of the range another value makes
    it return false. *)
Theorem validTable_checksum (m : Memory) (tablePtr tableLength : Z) :
  0 <= tableLength < 2 ^ 32 ->
  (validTable m tablePtr tableLength = true
   <-> byteSum m tablePtr 0 (Z.to_nat tableLength) mod 2 ^ 8 = 0)
  /\ (forall (k : Z) (b : byte),
         0 <= k < tableLength ->
         validTable m tablePtr tableLength = true ->
         b <> m (wrap64 (tablePtr + k)) ->
         validTable (store8 m (wrap64 (tablePtr + k)) b) tablePtr tableLength
         = false).
Proof.
  intros Hlen. split; [apply validTable_byteSum; exact Hlen|].
  intros k b Hk Hvalid Hb.
  apply validTable_byteSum in Hvalid; [|exact Hlen].
  apply not_true_is_false. intros Hvalid'.
  apply validTable_byteSum in Hvalid'; [|exact Hlen].
  rewrite byteSum_store8 in Hvalid' by lia.
  replace ((0 <=? k) && (k <? 0 + Z.of_nat (Z.to_nat tableLength)))
    with true in Hvalid'
    by (symmetry; apply andb_true_iff; split;
        [apply Z.leb_le | apply Z.ltb_lt]; lia).
  assert (Hne : byteZ b <> load8 m (wrap64 (tablePtr + k))).
  { unfold load8. intros E. apply byteZ_inj in E. contradiction. }
  pose proof (byteZ_range b). pose proof (load8_range m (wrap64 (tablePtr + k))).
  change (2 ^ 8) with 256 in *.
  Z.div_mod_to_equations. lia.
Qed.

Lemma validTable_checksum_witness :
  0 <= 20 < 2 ^ 32
  /\ (validTable memRsdpV1 rsdpLocationLow 20 = true
      <-> byteSum memRsdpV1 rsdpLocationLow 0 (Z.to_nat 20) mod 2 ^ 8 = 0)
  /\ (forall (k : Z) (b : byte),
         0 <= k < 20 ->
         validTable memRsdpV1 rsdpLocationLow 20 = true ->
         b <> memRsdpV1 (wrap64 (rsdpLocationLow + k)) ->
         validTable (store8 memRsdpV1 (wrap64 (rsdpLocationLow + k)) b)
           rsdpLocationLow 20 = false).
Proof.
  split; [lia | apply (validTable_checksum memRsdpV1 rsdpLocationLow 20); lia].
Defined.

(** The root pointer of [memRsdpV1] passes, and fails once its revision
    byte is overwritten. *)
Example validTable_accepts_then_rejects :
  validTable memRsdpV1 rsdpLocationLow 20 = true
  /\ validTable (store8 memRsdpV1 (rsdpLocationLow + 15) x02)
       rsdpLocationLow 20 = false.
Proof. split; vm_compute; reflexivity. Qed.

(** *** Facts about the trace projections *)

Lemma mapCalls_app (a b : Trace) : mapCalls (a ++ b) = mapCalls a ++ mapCalls b.
Proof. apply omap_app. Qed.

Lemma mappedOk_app (a b : Trace) : mappedOk (a ++ b) = mappedOk a ++ mappedOk b.
Proof. apply omap_app. Qed.

Lemma unmapCalls_app (a b : Trace) :
  unmapCalls (a ++ b) = unmapCalls a ++ unmapCalls b.
Proof. apply omap_app. Qed.

Lemma unmapFailures_app (a b : Trace) :
  unmapFailures (a ++ b) = unmapFailures a ++ unmapFailures b.
Proof. apply omap_app. Qed.

Lemma reclaimCalls_app (a b : Trace) :
  reclaimCalls (a ++ b) = reclaimCalls a ++ reclaimCalls b.
Proof. apply omap_app. Qed.

Lemma foundTables_app (a b : Trace) :
  foundTables (a ++ b) = foundTables a ++ foundTables b.
Proof. apply omap_app. Qed.

(** *** The reservation loop *)

(** What a run of the loop of [mapRegion] does: it appends calls of
    [mapFn] only, never for a page that was in the set, and the set grows
    by exactly the pages whose call succeeded. *)
Lemma mapRegion_loop_spec (P : Platform) :
  forall (fuel : nat) (cur last : Z) (tr : Trace) (pages : gset Z)
         (tr' : Trace) (pages' : gset Z) (err : option Error),
    mapRegion_loop P fuel cur last tr pages = (tr', pages', err) ->
    exists ev : Trace,
      tr' = tr ++ ev
      /\ pages' = list_to_set (mappedOk ev) ∪ pages
      /\ (forall p, p ∈ mapCalls ev -> p ∉ pages)
      /\ unmapCalls ev = [] /\ reclaimCalls ev = [] /\ foundTables ev = [].
Proof.
  induction fuel as [|fuel IH]; intros cur last tr pages tr' pages' err H;
    cbn [mapRegion_loop] in H.
  - inversion H; subst. exists []. rewrite app_nil_r.
    repeat split; try reflexivity; set_solver.
  - destruct (cur <=? last).
    2:{ inversion H; subst. exists []. rewrite app_nil_r.
        repeat split; try reflexivity; set_solver. }
    destruct (decide (cur ∈ pages)) as [Hin|Hnin].
    { apply IH in H. exact H. }
    destruct (mapFn P tr cur cur FlagPresent) as [e|] eqn:Hmap.
    + inversion H; subst.
      exists [EvMap cur cur FlagPresent (Some e)].
      repeat split; try reflexivity; [set_solver|].
      intros p Hp. cbn in Hp. set_solver.
    + apply IH in H.
      destruct H as (ev & -> & -> & Hfresh & Hu & Hr & Hf).
      exists (EvMap cur cur FlagPresent None :: ev).
      rewrite <- app_assoc. cbn [app].
      repeat split; try assumption.
      * cbn. set_solver.
      * intros p Hp. cbn in Hp. apply elem_of_cons in Hp as [->|Hp];
          [assumption|]. apply Hfresh in Hp. set_solver.
Qed.

(** A run that ended without error leaves every page it visited in the
    set, so a later run over the same pages, from any set that contains
    the result, calls nothing and changes nothing. *)
Lemma mapRegion_loop_again (P : Platform) :
  forall (fuel : nat) (cur last : Z) (tr : Trace) (pages : gset Z)
         (tr' : Trace) (pages' : gset Z),
    mapRegion_loop P fuel cur last tr pages = (tr', pages', None) ->
    forall (pages2 : gset Z) (tr2 : Trace),
      pages' ⊆ pages2 ->
      mapRegion_loop P fuel cur last tr2 pages2 = (tr2, pages2, None).
Proof.
  induction fuel as [|fuel IH]; intros cur last tr pages tr' pages' H
    pages2 tr2 Hsub; cbn [mapRegion_loop] in *; [reflexivity|].
  destruct (cur <=? last); [|reflexivity].
  destruct (decide (cur ∈ pages)) as [Hin|Hnin].
  - pose proof (mapRegion_loop_spec _ _ _ _ _ _ _ _ _ H)
      as (ev & _ & -> & _).
    rewrite decide_True by set_solver. eapply IH; eassumption.
  - destruct (mapFn P tr cur cur FlagPresent) as [e|]; [discriminate|].
    pose proof (mapRegion_loop_spec _ _ _ _ _ _ _ _ _ H)
      as (ev & _ & -> & _).
    rewrite decide_True by set_solver. eapply IH; eassumption.
Qed.

Lemma mapRegion_spec (P : Platform) (drv : acpiDriver) (startAddr size : Z)
    (tr tr' : Trace) (drv' : acpiDriver) (err : option Error) :
  mapRegion P drv startAddr size tr = (tr', drv', err) ->
  exists ev : Trace,
    tr' = tr ++ ev
    /\ mappedPages drv' = list_to_set (mappedOk ev) ∪ mappedPages drv
    /\ rsdtAddr drv' = rsdtAddr drv /\ useXSDT drv' = useXSDT drv
    /\ (forall p, p ∈ mapCalls ev -> p ∉ mappedPages drv)
    /\ unmapCalls ev = [] /\ reclaimCalls ev = [] /\ foundTables ev = [].
Proof.
  unfold mapRegion. intros H.
  destruct (mapRegion_loop P _ _ _ tr (mappedPages drv))
    as [[tr1 pages1] err1] eqn:Hloop.
  inversion H; subst; clear H.
  apply mapRegion_loop_spec in Hloop.
  destruct Hloop as (ev & -> & -> & Hfresh & Hu & Hr & Hf).
  exists ev. cbn. repeat split; assumption.
Qed.

(** *** The page range of [mapRegion] *)

Lemma land_page_mask (x s : Z) :
  0 <= s < 64 -> 0 <= x < 2 ^ 64 ->
  Z.land x (2 ^ 64 - 2 ^ s) = 2 ^ s * (x / 2 ^ s).
Proof.
  intros Hs Hx.
  assert (HM : 2 ^ 64 - 2 ^ s = Z.shiftl (Z.ones (64 - s)) s).
  { rewrite Z.shiftl_mul_pow2, Z.ones_equiv by lia.
    replace (2 ^ 64) with (2 ^ (64 - s) * 2 ^ s)
      by (rewrite <- Z.pow_add_r by lia; f_equal; lia).
    lia. }
  assert (HR : 2 ^ s * (x / 2 ^ s) = Z.shiftl (Z.shiftr x s) s).
  { rewrite Z.shiftl_mul_pow2, Z.shiftr_div_pow2 by lia. lia. }
  rewrite HM, HR. apply Z.bits_inj'. intros n Hn.
  rewrite Z.land_spec, !Z.shiftl_spec by lia.
  destruct (Z_lt_le_dec n s) as [Hlt|Hge].
  - rewrite !(Z.testbit_neg_r _ (n - s)) by lia. apply andb_false_r.
  - rewrite Z.shiftr_spec by lia. replace (n - s + s) with n by lia.
    rewrite Z.testbit_ones by lia.
    destruct (Z_lt_le_dec n 64) as [Hn64|Hn64].
    + replace (0 <=? n - s) with true by (symmetry; apply Z.leb_le; lia).
      replace (n - s <? 64 - s) with true by (symmetry; apply Z.ltb_lt; lia).
      apply andb_true_r.
    + replace (n - s <? 64 - s) with false by (symmetry; apply Z.ltb_ge; lia).
      rewrite andb_false_r, andb_false_r. symmetry.
      destruct (Z.eq_dec x 0) as [->|Hx0]; [apply Z.testbit_0_l|].
      apply Z.bits_above_log2; [lia|].
      assert (Z.log2 x < 64) by (apply Z.log2_lt_pow2; lia). lia.
Qed.

Lemma PageSize_pow2 (P : Platform) : PageSize P = 2 ^ Z.of_N (PageShift P).
Proof. unfold PageSize. rewrite Z.shiftl_mul_pow2 by lia. lia. Qed.

(** The mask that clears the offset bits of an address. *)
Lemma page_mask (P : Platform) :
  Z.of_N (PageShift P) < 64 ->
  wrap64 (PageSize P - 1) = PageSize P - 1
  /\ wrap64 (Z.lnot (wrap64 (PageSize P - 1))) = 2 ^ 64 - PageSize P.
Proof.
  intros Hs. rewrite PageSize_pow2.
  assert (H0 : 0 < 2 ^ Z.of_N (PageShift P)) by (apply Z.pow_pos_nonneg; lia).
  assert (H1 : 2 ^ Z.of_N (PageShift P) < 2 ^ 64)
    by (apply Z.pow_lt_mono_r; lia).
  assert (Hw : wrap64 (2 ^ Z.of_N (PageShift P) - 1)
               = 2 ^ Z.of_N (PageShift P) - 1)
    by (unfold wrap64; apply Z.mod_small; lia).
  split; [exact Hw|]. rewrite Hw. unfold Z.lnot, wrap64.
  replace (Z.pred (- (2 ^ Z.of_N (PageShift P) - 1)))
    with (2 ^ 64 - 2 ^ Z.of_N (PageShift P) + (-1) * 2 ^ 64) by lia.
  rewrite Z.mod_add by lia. apply Z.mod_small. lia.
Qed.

(** [PageFromAddress] is the division by the page size. *)
Lemma PageFromAddress_div (P : Platform) (a : Z) :
  Z.of_N (PageShift P) < 64 -> 0 <= a < 2 ^ 64 ->
  PageFromAddress P a = a / PageSize P.
Proof.
  intros Hs Ha. unfold PageFromAddress.
  destruct (page_mask P Hs) as [_ ->]. rewrite PageSize_pow2.
  assert (H0 : 0 < 2 ^ Z.of_N (PageShift P)) by (apply Z.pow_pos_nonneg; lia).
  rewrite land_page_mask by lia. rewrite Z.shiftr_div_pow2 by lia.
  rewrite Z.mul_comm, Z.div_mul by lia. reflexivity.
Qed.

(** The loop of [mapRegion] starts at the page that contains
    [startAddr] and, when the address arithmetic does not overflow, ends
    at the page after the one that contains the last byte
    [startAddr + size - 1] of the range. *)
Lemma mapRegion_page_range (P : Platform) (startAddr size : Z) :
  Z.of_N (PageShift P) < 64 ->
  0 <= startAddr -> 0 <= size -> startAddr + size + PageSize P <= 2 ^ 64 ->
  mapRegion_first P startAddr = startAddr / PageSize P
  /\ mapRegion_last P startAddr size
     = (startAddr + size - 1) / PageSize P + 1.
Proof.
  intros Hs Ha Hsize Hfit.
  destruct (page_mask P Hs) as [Hm1 Hmask].
  pose proof (PageSize_pow2 P) as Hps.
  assert (H0 : 0 < PageSize P)
    by (rewrite Hps; apply Z.pow_pos_nonneg; lia).
  unfold mapRegion_first, mapRegion_last. cbv zeta. rewrite Hmask, Hm1.
  assert (Hw : wrap64 (wrap64 (startAddr + size) + (PageSize P - 1))
               = startAddr + size + PageSize P - 1).
  { unfold wrap64. rewrite Zplus_mod_idemp_l. rewrite Z.mod_small; lia. }
  rewrite Hw. rewrite Hps in *.
  rewrite !land_page_mask by lia.
  assert (Hdiv : forall x, 0 <= x < 2 ^ 64 ->
             PageFromAddress P (2 ^ Z.of_N (PageShift P)
                                * (x / 2 ^ Z.of_N (PageShift P)))
             = x / 2 ^ Z.of_N (PageShift P)).
  { intros x Hx. rewrite PageFromAddress_div; [|exact Hs|].
    - rewrite Hps, Z.mul_comm, Z.div_mul by lia. reflexivity.
    - pose proof (Z.mul_div_le x _ H0).
      assert (0 <= x / 2 ^ Z.of_N (PageShift P)) by (apply Z.div_pos; lia).
      nia. }
  rewrite !Hdiv by lia. split; [reflexivity|].
  replace (startAddr + size + 2 ^ Z.of_N (PageShift P) - 1)
    with (startAddr + size - 1 + 1 * 2 ^ Z.of_N (PageShift P)) by lia.
  rewrite Z.div_add by lia. reflexivity.
Qed.

(** A run of the loop that ends without error leaves every page from
    [cur] to [last] in the reservation set. *)
Lemma mapRegion_loop_covers (P : Platform) :
  forall (fuel : nat) (cur last : Z) (tr : Trace) (pages : gset Z)
         (tr' : Trace) (pages' : gset Z),
    0 <= cur -> last + 1 < 2 ^ 64 -> cur + Z.of_nat fuel = last + 1 ->
    mapRegion_loop P fuel cur last tr pages = (tr', pages', None) ->
    forall p, cur <= p <= last -> p ∈ pages'.
Proof.
  induction fuel as [|fuel IH]; intros cur last tr pages tr' pages'
    Hcur Hlast Hfuel H p Hp; [lia|].
  cbn [mapRegion_loop] in H.
  replace (cur <=? last) with true in H by (symmetry; apply Z.leb_le; lia).
  assert (Hw : wrap64 (cur + 1) = cur + 1)
    by (unfold wrap64; apply Z.mod_small; lia).
  rewrite Hw in H.
  destruct (decide (cur ∈ pages)) as [Hin|Hnin].
  - destruct (Z.eq_dec p cur) as [->|Hne].
    + apply mapRegion_loop_spec in H. destruct H as (ev & _ & -> & _).
      set_solver.
    + eapply (IH (cur + 1)); [| | |exact H|]; lia.
  - destruct (mapFn P tr cur cur FlagPresent) as [e|]; [discriminate|].
    destruct (Z.eq_dec p cur) as [->|Hne].
    + apply mapRegion_loop_spec in H. destruct H as (ev & _ & -> & _).
      set_solver.
    + eapply (IH (cur + 1)); [| | |exact H|]; lia.
Qed.

(** Whenever [mapRegion] succeeds on a range of at least one byte whose
    address arithmetic does not overflow, the reservation set contains
    the page after the one that holds the last byte of the range. *)
Lemma mapRegion_reserves_page_past_end (P : Platform) (drv : acpiDriver)
    (startAddr size : Z) (tr tr' : Trace) (drv' : acpiDriver) :
  Z.of_N (PageShift P) < 64 ->
  0 <= startAddr -> 0 < size -> startAddr + size + PageSize P < 2 ^ 64 ->
  mapRegion P drv startAddr size tr = (tr', drv', None) ->
  (startAddr + size - 1) / PageSize P + 1 ∈ mappedPages drv'.
Proof.
  intros Hs Ha Hsize Hfit H. unfold mapRegion in H.
  destruct (mapRegion_page_range P startAddr size Hs Ha ltac:(lia) ltac:(lia))
    as [Hfirst Hlast].
  rewrite Hfirst, Hlast in H.
  pose proof (PageSize_pow2 P) as Hps.
  assert (H0 : 0 < PageSize P)
    by (rewrite Hps; apply Z.pow_pos_nonneg; lia).
  assert (H1 : 0 <= startAddr / PageSize P) by (apply Z.div_pos; lia).
  assert (H2 : startAddr / PageSize P <= (startAddr + size - 1) / PageSize P)
    by (apply Z.div_le_mono; lia).
  assert (H3 : (startAddr + size - 1) / PageSize P <= startAddr + size - 1)
    by (apply Z.div_le_upper_bound; nia).
  destruct (mapRegion_loop P _ _ _ tr (mappedPages drv))
    as [[tr1 pages1] err1] eqn:Hloop.
  inversion H; subst; clear H. cbn [mappedPages withMappedPages].
  eapply mapRegion_loop_covers; [| | |exact Hloop|]; lia.
Qed.

(** C3 (what the code does at a failing input): with 4 KiB pages, an
    empty reservation set and a mapping primitive that succeeds,
    [mapRegion] of the one-byte range at address 0 passes page 0 and
    page 1 to [mapFn] and records both, although the range lies in
    page 0 alone. *)
Theorem mapRegion_maps_page_past_end :
  exists drv' : acpiDriver,
    mapRegion vmmOk (emptyDriver 0 false) 0 1 []
    = ([EvMap 0 0 FlagPresent None; EvMap 1 1 FlagPresent None], drv', None)
    /\ elements (mappedPages drv') = [1; 0]
    /\ (0 + 1 - 1) / PageSize vmmOk = 0.
Proof.
  eexists. split; [vm_compute; reflexivity|].
  split; vm_compute; reflexivity.
Qed.

(** C10 (as amended): a call of [mapRegion] never passes a page that is
    already in the reservation set to [mapFn]; and once a call has
    succeeded, calling it again with the same range, from the resulting
    set or any larger one, makes no call at all and leaves the set as it
    is. *)
Theorem mapRegion_idempotent (P : Platform) (drv : acpiDriver)
    (startAddr size : Z) (tr tr1 : Trace) (drv1 : acpiDriver)
    (err : option Error) :
  mapRegion P drv startAddr size tr = (tr1, drv1, err) ->
  (exists ev : Trace,
      tr1 = tr ++ ev /\ forall p, p ∈ mapCalls ev -> p ∉ mappedPages drv)
  /\ (err = None ->
      forall (drv2 : acpiDriver) (tr2 : Trace),
        mappedPages drv1 ⊆ mappedPages drv2 ->
        mapRegion P drv2 startAddr size tr2 = (tr2, drv2, None)).
Proof.
  intros H. split.
  - apply mapRegion_spec in H. destruct H as (ev & -> & _ & _ & _ & Hf & _).
    exists ev. split; [reflexivity | exact Hf].
  - intros -> drv2 tr2 Hsub. unfold mapRegion in *.
    destruct (mapRegion_loop P _ _ _ tr (mappedPages drv))
      as [[tr1' pages1] err1] eqn:Hloop.
    inversion H; subst; clear H. cbn in Hsub.
    rewrite (mapRegion_loop_again _ _ _ _ _ _ _ _ Hloop _ tr2 Hsub).
    destruct drv2; reflexivity.
Qed.

Lemma mapRegion_idempotent_witness :
  exists (tr1 : Trace) (drv1 : acpiDriver),
    mapRegion vmmOk (emptyDriver 0 false) 0 4096 [] = (tr1, drv1, None)
    /\ (exists ev : Trace,
           tr1 = [] ++ ev
           /\ forall p, p ∈ mapCalls ev -> p ∉ mappedPages (emptyDriver 0 false))
    /\ (@None Error = None ->
        forall (drv2 : acpiDriver) (tr2 : Trace),
          mappedPages drv1 ⊆ mappedPages drv2 ->
          mapRegion vmmOk drv2 0 4096 tr2 = (tr2, drv2, None)).
Proof.
  eexists; eexists.
  assert (H : mapRegion vmmOk (emptyDriver 0 false) 0 4096 []
              = ([EvMap 0 0 FlagPresent None; EvMap 1 1 FlagPresent None],
                 withMappedPages (emptyDriver 0 false) ({[1]} ∪ ({[0]} ∪ ∅)),
                 None)) by reflexivity.
  split; [exact H|].
  exact (mapRegion_idempotent vmmOk (emptyDriver 0 false) 0 4096 [] _ _ None H).
Defined.

(** A second call whose range only overlaps the first one grows the
    reservation set: after [0, 4096) the set has 2 pages, after
    [100, 8292) it has 4. *)
Lemma mapRegion_overlap_grows :
  exists (tr1 tr2 : Trace) (drv1 drv2 : acpiDriver),
    mapRegion vmmOk (emptyDriver 0 false) 0 4096 [] = (tr1, drv1, None)
    /\ mapRegion vmmOk drv1 100 8192 tr1 = (tr2, drv2, None)
    /\ size (mappedPages drv1) = 2%nat
    /\ size (mappedPages drv2) = 4%nat
    /\ mappedPages drv2 <> mappedPages drv1.
Proof.
  do 4 eexists.
  split; [vm_compute; reflexivity|].
  split; [vm_compute; reflexivity|].
  split; [vm_compute; reflexivity|].
  split; [vm_compute; reflexivity|].
  intros E. apply (f_equal size) in E. vm_compute in E. discriminate.
Qed.

(** *** Sessions only reserve *)

Lemma reserves_refl (tr : Trace) (drv : acpiDriver) : reserves tr drv tr drv [].
Proof.
  unfold reserves. rewrite app_nil_r. cbn.
  repeat split; try reflexivity. set_solver.
Qed.

Lemma reserves_trans (tr tr1 tr2 : Trace) (drv drv1 drv2 : acpiDriver)
    (ev1 ev2 : Trace) :
  reserves tr drv tr1 drv1 ev1 ->
  reserves tr1 drv1 tr2 drv2 ev2 ->
  reserves tr drv tr2 drv2 (ev1 ++ ev2).
Proof.
  intros (-> & Hp1 & Ha1 & Hx1 & Hu1 & Hr1) (-> & Hp2 & Ha2 & Hx2 & Hu2 & Hr2).
  unfold reserves.
  rewrite mappedOk_app, unmapCalls_app, reclaimCalls_app, Hu1, Hu2, Hr1, Hr2.
  rewrite app_assoc, Hp2, Hp1, Ha2, Ha1, Hx2, Hx1.
  repeat split; try reflexivity. set_solver.
Qed.

Lemma reserves_found (tr : Trace) (drv : acpiDriver) (sig : list byte)
    (addr len : Z) :
  reserves tr drv (tr ++ [EvFound sig addr len]) drv [EvFound sig addr len].
Proof.
  unfold reserves. cbn. repeat split; try reflexivity. set_solver.
Qed.

Lemma mapRegion_reserves (P : Platform) (drv : acpiDriver) (startAddr size : Z)
    (tr tr' : Trace) (drv' : acpiDriver) (err : option Error) :
  mapRegion P drv startAddr size tr = (tr', drv', err) ->
  exists ev : Trace, reserves tr drv tr' drv' ev /\ foundTables ev = [].
Proof.
  intros H. apply mapRegion_spec in H.
  destruct H as (ev & ? & ? & ? & ? & ? & ? & ? & ?).
  exists ev. unfold reserves. repeat split; assumption.
Qed.

(** [mapACPITable] appends calls of [mapFn] only; it reports the fixed
    header size; when it succeeds, the header it returns is the table
    address and the table passes its checksum, and when it fails with
    an error of its own, that error is the checksum mismatch. *)
Lemma mapACPITable_spec (P : Platform) (m : Memory) (drv : acpiDriver)
    (tableAddr : Z) (tr tr' : Trace) (drv' : acpiDriver)
    (header sz : Z) (err : option Error) :
  mapACPITable P m drv tableAddr tr = (tr', drv', (header, sz, err)) ->
  (exists ev : Trace, reserves tr drv tr' drv' ev /\ foundTables ev = [])
  /\ sz = sdtHeader.sizeof
  /\ (err = None ->
      header = tableAddr
      /\ validTable m tableAddr (sdtHeader.length m tableAddr) = true).
Proof.
  unfold mapACPITable. intros H.
  destruct (mapRegion P drv tableAddr sdtHeader.sizeof tr)
    as [[tr1 drv1] e1] eqn:H1.
  pose proof (mapRegion_reserves _ _ _ _ _ _ _ _ H1) as (ev1 & R1 & F1).
  destruct e1 as [e1|].
  { inversion H; subst. split; [|split; [reflexivity | discriminate]].
    exists ev1. split; assumption. }
  destruct (mapRegion P drv1 tableAddr (sdtHeader.length m tableAddr) tr1)
    as [[tr2 drv2] e2] eqn:H2.
  pose proof (mapRegion_reserves _ _ _ _ _ _ _ _ H2) as (ev2 & R2 & F2).
  assert (R : exists ev, reserves tr drv tr2 drv2 ev /\ foundTables ev = []).
  { exists (ev1 ++ ev2). split; [eapply reserves_trans; eassumption|].
    rewrite foundTables_app, F1, F2. reflexivity. }
  destruct e2 as [e2|].
  { inversion H; subst. split; [exact R | split; [reflexivity | discriminate]]. }
  destruct (validTable m tableAddr (sdtHeader.length m tableAddr)) eqn:Hv;
    cbn [negb] in H; inversion H; subst.
  - split; [exact R | split; [reflexivity|]]. intros _. split; reflexivity.
  - split; [exact R | split; [reflexivity | discriminate]].
Qed.

Lemma parseRSDT_visit_reserves (P : Platform) (m : Memory) :
  forall (addrs : list Z) (drv : acpiDriver) (tr tr' : Trace)
         (drv' : acpiDriver) (err : option Error),
    parseRSDT_visit P m addrs drv tr = (tr', drv', err) ->
    exists ev : Trace, reserves tr drv tr' drv' ev.
Proof.
  induction addrs as [|addr rest IH]; intros drv tr tr' drv' err H;
    cbn [parseRSDT_visit] in H.
  - inversion H; subst. exists []. apply reserves_refl.
  - destruct (mapACPITable P m drv addr tr) as [[tr1 drv1] [[h sz] e]] eqn:Hm.
    pose proof (mapACPITable_spec _ _ _ _ _ _ _ _ _ _ Hm) as ((ev1 & R1 & _) & _).
    destruct e as [e|].
    + destruct (decide (e = errTableChecksumMismatch)).
      * apply IH in H. destruct H as (ev2 & R2).
        exists (ev1 ++ ev2). eapply reserves_trans; eassumption.
      * inversion H; subst. exists ev1. exact R1.
    + apply IH in H. destruct H as (ev2 & R2).
      eexists. eapply reserves_trans; [exact R1|].
      eapply reserves_trans; [apply reserves_found | exact R2].
Qed.

Lemma parseRSDT_reserves (P : Platform) (m : Memory) (drv : acpiDriver)
    (tr tr' : Trace) (drv' : acpiDriver) (err : option Error) :
  parseRSDT P m drv tr = (tr', drv', err) ->
  exists ev : Trace, reserves tr drv tr' drv' ev.
Proof.
  unfold parseRSDT. intros H.
  destruct (mapACPITable P m drv (rsdtAddr drv) tr)
    as [[tr1 drv1] [[h sz] e]] eqn:Hm.
  pose proof (mapACPITable_spec _ _ _ _ _ _ _ _ _ _ Hm) as ((ev1 & R1 & _) & _).
  destruct e as [e|].
  - inversion H; subst. exists ev1. exact R1.
  - apply parseRSDT_visit_reserves in H. destruct H as (ev2 & R2).
    exists (ev1 ++ ev2). eapply reserves_trans; eassumption.
Qed.

(** C5: an error of [mapACPITable] on the root table, the checksum
    mismatch included, ends [parseRSDT] with that error and nothing
    reported; in the walk over the sub-table addresses a checksum
    mismatch skips exactly the current entry, reporting nothing for it,
    and the walk goes on with the next entry; any other error ends the
    walk and is returned as it is; a table that maps without error is
    reported and the walk goes on. *)
Theorem parseRSDT_error_policy (P : Platform) (m : Memory) (drv : acpiDriver)
    (tr tr1 : Trace) (drv1 : acpiDriver) (header sz : Z) :
  (forall err : Error,
      mapACPITable P m drv (rsdtAddr drv) tr
      = (tr1, drv1, (header, sz, Some err)) ->
      parseRSDT P m drv tr = (tr1, drv1, Some err)
      /\ foundTables tr1 = foundTables tr)
  /\ (forall (addr : Z) (rest : list Z),
         mapACPITable P m drv addr tr
         = (tr1, drv1, (header, sz, Some errTableChecksumMismatch)) ->
         parseRSDT_visit P m (addr :: rest) drv tr
         = parseRSDT_visit P m rest drv1 tr1
         /\ foundTables tr1 = foundTables tr)
  /\ (forall (addr : Z) (rest : list Z) (err : Error),
         err <> errTableChecksumMismatch ->
         mapACPITable P m drv addr tr
         = (tr1, drv1, (header, sz, Some err)) ->
         parseRSDT_visit P m (addr :: rest) drv tr = (tr1, drv1, Some err)
         /\ foundTables tr1 = foundTables tr)
  /\ (forall (addr : Z) (rest : list Z),
         mapACPITable P m drv addr tr = (tr1, drv1, (header, sz, None)) ->
         parseRSDT_visit P m (addr :: rest) drv tr
         = parseRSDT_visit P m rest drv1
             (tr1 ++ [EvFound (sdtHeader.signature m addr) addr
                              (sdtHeader.length m addr)])).
Proof.
  assert (Hfound : forall addr e,
             mapACPITable P m drv addr tr = (tr1, drv1, (header, sz, e)) ->
             foundTables tr1 = foundTables tr).
  { intros addr e H. apply mapACPITable_spec in H.
    destruct H as ((ev & (-> & _) & F) & _).
    rewrite foundTables_app, F, app_nil_r. reflexivity. }
  repeat split.
  - unfold parseRSDT. rewrite H. reflexivity.
  - eapply Hfound; eassumption.
  - cbn [parseRSDT_visit]. rewrite H. rewrite decide_True by reflexivity.
    reflexivity.
  - eapply Hfound; eassumption.
  - cbn [parseRSDT_visit]. rewrite H0. rewrite decide_False by assumption.
    reflexivity.
  - eapply Hfound; eassumption.
  - intros addr rest H. cbn [parseRSDT_visit]. rewrite H.
    apply mapACPITable_spec in H. destruct H as (_ & _ & Hh).
    destruct (Hh eq_refl) as [-> _]. reflexivity.
Qed.

(** The scenario of a valid root table with one corrupt and one valid
    sub-table: the corrupt APIC table at 0x1040 is skipped, the FACP
    table at 0x1080 is reported, and no error is returned. *)
Lemma parseRSDT_error_policy_witness :
  exists (tr1 : Trace) (drv1 : acpiDriver) (header sz : Z),
    mapACPITable vmmOk memRsdt (driverAfterRoot false) 0x1040 traceAfterRoot
    = (tr1, drv1, (header, sz, Some errTableChecksumMismatch))
    /\ parseRSDT_visit vmmOk memRsdt [0x1040; 0x1080]
         (driverAfterRoot false) traceAfterRoot
       = parseRSDT_visit vmmOk memRsdt [0x1080] drv1 tr1
    /\ foundTables tr1 = foundTables traceAfterRoot
    /\ foundTables
         (parseRSDT vmmOk memRsdt (emptyDriver 0x1000 false) []).1.1
       = [([x46; x41; x43; x50], 0x1080, 36)]
    /\ (parseRSDT vmmOk memRsdt (emptyDriver 0x1000 false) []).2 = None.
Proof.
  do 4 eexists.
  assert (H : mapACPITable vmmOk memRsdt (driverAfterRoot false) 0x1040
                traceAfterRoot
              = (traceAfterRoot, driverAfterRoot false,
                 (0, 36, Some errTableChecksumMismatch)))
    by (vm_compute; reflexivity).
  split; [exact H|].
  pose proof (parseRSDT_error_policy vmmOk memRsdt (driverAfterRoot false)
                traceAfterRoot traceAfterRoot (driverAfterRoot false) 0 36)
    as (_ & Hskip & _).
  destruct (Hskip 0x1040 [0x1080] H) as [Hwalk Hfound].
  split; [exact Hwalk|]. split; [exact Hfound|].
  split; vm_compute; reflexivity.
Defined.

(** *** The address list of the root table *)

Lemma loadLE_range (m : Memory) :
  forall (n : nat) (p : Z), 0 <= loadLE m n p < 2 ^ (8 * Z.of_nat n).
Proof.
  induction n as [|n IH]; intros p; cbn [loadLE]; [cbn; lia|].
  specialize (IH (wrap64 (p + 1))). pose proof (load8_range m p).
  replace (8 * Z.of_nat (S n)) with (8 + 8 * Z.of_nat n) by lia.
  rewrite Z.pow_add_r by lia. change (2 ^ 8) with 256. nia.
Qed.

Lemma sdtHeader_length_range (m : Memory) (p : Z) :
  0 <= sdtHeader.length m p < 2 ^ 32.
Proof. apply (loadLE_range m 4). Qed.

Lemma readAddresses_length (m : Memory) (width : nat) :
  forall (n : nat) (curPtr : Z),
    List.length (readAddresses m width n curPtr) = n.
Proof.
  induction n as [|n IH]; intros curPtr; cbn [readAddresses List.length];
    [reflexivity|]. rewrite IH. reflexivity.
Qed.

Lemma readAddresses_lookup (m : Memory) (width : nat) :
  forall (n : nat) (curPtr : Z) (i : nat),
    (i < n)%nat ->
    readAddresses m width n (wrap64 curPtr) !! i
    = Some (loadLE m width (wrap64 (curPtr + Z.of_nat width * Z.of_nat i))).
Proof.
  induction n as [|n IH]; intros curPtr i Hi; [lia|].
  cbn [readAddresses]. destruct i as [|i].
  - cbn. do 2 f_equal. f_equal. lia.
  - cbn [lookup list_lookup].
    replace (wrap64 (wrap64 curPtr + Z.of_nat width))
      with (wrap64 (curPtr + Z.of_nat width))
      by (unfold wrap64; rewrite Zplus_mod_idemp_l; reflexivity).
    change (list_lookup i ?l) with (l !! i).
    rewrite IH by lia. do 2 f_equal. f_equal. lia.
Qed.

Lemma payloadLen_in_range (length : Z) :
  sdtHeader.sizeof <= length < 2 ^ 32 ->
  payloadLen length sdtHeader.sizeof = length - sdtHeader.sizeof.
Proof.
  unfold payloadLen, wrap32, sdtHeader.sizeof. intros H.
  rewrite (Z.mod_small 36) by lia. apply Z.mod_small. lia.
Qed.

Lemma payloadLen_short (length : Z) :
  0 <= length < sdtHeader.sizeof ->
  payloadLen length sdtHeader.sizeof = length + 2 ^ 32 - sdtHeader.sizeof.
Proof.
  unfold payloadLen, wrap32, sdtHeader.sizeof. intros H.
  rewrite (Z.mod_small 36) by lia.
  replace (length - 36) with (length + 2 ^ 32 - 36 + (-1) * 2 ^ 32) by lia.
  rewrite Z.mod_add by lia. apply Z.mod_small. lia.
Qed.

Lemma entryCount_div (xsdt : bool) (n : Z) :
  entryCount xsdt n = n / (if xsdt then 8 else 4).
Proof.
  unfold entryCount. destruct xsdt; rewrite Z.shiftr_div_pow2 by lia;
    reflexivity.
Qed.

(** After the root table is mapped, [parseRSDT] walks the address list
    read from its payload. *)
Lemma parseRSDT_walks (P : Platform) (m : Memory) (drv : acpiDriver)
    (tr tr1 : Trace) (drv1 : acpiDriver) (header sz : Z) :
  mapACPITable P m drv (rsdtAddr drv) tr = (tr1, drv1, (header, sz, None)) ->
  parseRSDT P m drv tr
  = parseRSDT_visit P m (sdtAddresses m drv1 header sz) drv1 tr1
  /\ header = rsdtAddr drv /\ sz = sdtHeader.sizeof
  /\ rsdtAddr drv1 = rsdtAddr drv /\ useXSDT drv1 = useXSDT drv.
Proof.
  intros H. split; [unfold parseRSDT; rewrite H; reflexivity|].
  apply mapACPITable_spec in H.
  destruct H as ((ev & (_ & _ & Ha & Hx & _) & _) & Hsz & Hh).
  destruct (Hh eq_refl) as [Hhd _]. repeat split; assumption.
Qed.

(** C6 (as amended): once the root table is mapped, with a declared
    length [L] of at least the header size, the walker reads
    [(L - header_size) / 8] addresses of 64 bits when the XSDT is used
    and [(L - header_size) / 4] addresses of 32 bits otherwise; entry
    [i] is read at the root address plus the header size plus [i] times
    the entry width, so the first one follows the header immediately;
    a length of header size plus 16 gives 2 addresses with the XSDT. *)
Theorem parseRSDT_entry_count (P : Platform) (m : Memory) (drv : acpiDriver)
    (tr tr1 : Trace) (drv1 : acpiDriver) (header sz : Z) :
  mapACPITable P m drv (rsdtAddr drv) tr = (tr1, drv1, (header, sz, None)) ->
  sdtHeader.sizeof <= sdtHeader.length m (rsdtAddr drv) ->
  let L := sdtHeader.length m (rsdtAddr drv) in
  let width := if useXSDT drv then 8 else 4 in
  let addrs := sdtAddresses m drv1 header sz in
  parseRSDT P m drv tr = parseRSDT_visit P m addrs drv1 tr1
  /\ Z.of_nat (List.length addrs) = (L - sdtHeader.sizeof) / width
  /\ (forall i : nat,
         (i < List.length addrs)%nat ->
         addrs !! i
         = Some (loadLE m (Z.to_nat width)
                   (wrap64 (rsdtAddr drv + sdtHeader.sizeof
                            + width * Z.of_nat i))))
  /\ (L = sdtHeader.sizeof + 16 -> useXSDT drv = true ->
      List.length addrs = 2%nat).
Proof.
  intros H Hge L width addrs.
  destruct (parseRSDT_walks _ _ _ _ _ _ _ _ H) as (Hwalk & -> & -> & Ha & Hx).
  pose proof (sdtHeader_length_range m (rsdtAddr drv)) as HL. fold L in HL.
  fold L in Hge.
  assert (Hw : 0 < width) by (subst width; destruct (useXSDT drv); lia).
  assert (Hlen : List.length addrs
                 = Z.to_nat ((L - sdtHeader.sizeof) / width)).
  { subst addrs. unfold sdtAddresses. rewrite readAddresses_length.
    rewrite entryCount_div, Hx. fold L.
    rewrite payloadLen_in_range by lia. reflexivity. }
  split; [exact Hwalk|]. split; [|split].
  - rewrite Hlen. apply Z2Nat.id. apply Z.div_pos; lia.
  - intros i Hi. subst addrs. unfold sdtAddresses in *.
    rewrite readAddresses_length in Hi.
    rewrite readAddresses_lookup by exact Hi. rewrite Ha, Hx.
    subst width. destruct (useXSDT drv); reflexivity.
  - intros HL16 Hxsdt. rewrite Hlen. subst width. rewrite Hxsdt, HL16.
    reflexivity.
Qed.

Lemma parseRSDT_entry_count_witness :
  mapACPITable vmmOk memXsdt (emptyDriver 0x1000 true) 0x1000 []
  = (traceAfterRoot, driverAfterRoot true, (0x1000, 36, None))
  /\ sdtHeader.sizeof <= sdtHeader.length memXsdt 0x1000
  /\ sdtHeader.length memXsdt 0x1000 = sdtHeader.sizeof + 16
  /\ Z.of_nat (List.length
                 (sdtAddresses memXsdt (driverAfterRoot true) 0x1000 36))
     = (sdtHeader.length memXsdt 0x1000 - sdtHeader.sizeof) / 8
  /\ List.length (sdtAddresses memXsdt (driverAfterRoot true) 0x1000 36)
     = 2%nat
  /\ sdtAddresses memXsdt (driverAfterRoot true) 0x1000 36 !! 0%nat
     = Some (loadLE memXsdt 8 (wrap64 (0x1000 + sdtHeader.sizeof + 8 * 0)))
  /\ sdtAddresses memXsdt (driverAfterRoot true) 0x1000 36 = [0x1040; 0x1080].
Proof.
  assert (H : mapACPITable vmmOk memXsdt (emptyDriver 0x1000 true)
                (rsdtAddr (emptyDriver 0x1000 true)) []
              = (traceAfterRoot, driverAfterRoot true, (0x1000, 36, None)))
    by (vm_compute; reflexivity).
  assert (Hge : sdtHeader.sizeof
                <= sdtHeader.length memXsdt
                     (rsdtAddr (emptyDriver 0x1000 true)))
    by (vm_compute; discriminate).
  assert (HL : sdtHeader.length memXsdt 0x1000 = sdtHeader.sizeof + 16)
    by (vm_compute; reflexivity).
  pose proof (parseRSDT_entry_count vmmOk memXsdt (emptyDriver 0x1000 true)
                [] traceAfterRoot (driverAfterRoot true) 0x1000 36 H Hge)
    as (_ & Hcount & Hentry & Htwo).
  split; [exact H|]. split; [exact Hge|]. split; [exact HL|].
  split; [exact Hcount|].
  split; [exact (Htwo HL eq_refl)|].
  split; [apply (Hentry 0%nat); rewrite (Htwo HL eq_refl); lia|].
  vm_compute; reflexivity.
Defined.

(** C6 fails as stated: the root table of zeroed memory declares length
    0 and is mapped without error; [(0 - header_size) / 8] is negative,
    and the address list of the XSDT walker has 536870907 entries. *)
Lemma parseRSDT_entry_count_short_cex :
  mapACPITable vmmOk memZero (emptyDriver 0x1000 true) 0x1000 []
  = (traceAfterRoot, driverAfterRoot true, (0x1000, 36, None))
  /\ sdtHeader.length memZero 0x1000 = 0
  /\ (sdtHeader.length memZero 0x1000 - sdtHeader.sizeof) / 8 = -5
  /\ Z.of_nat (List.length
                 (sdtAddresses memZero (driverAfterRoot true) 0x1000 36))
     = 536870907
  /\ Z.of_nat (List.length
                 (sdtAddresses memZero (driverAfterRoot true) 0x1000 36))
     <> (sdtHeader.length memZero 0x1000 - sdtHeader.sizeof) / 8.
Proof.
  assert (Hlen : Z.of_nat (List.length
                             (sdtAddresses memZero (driverAfterRoot true)
                                0x1000 36)) = 536870907).
  { unfold sdtAddresses. rewrite readAddresses_length.
    assert (Hc : entryCount (useXSDT (driverAfterRoot true))
                   (payloadLen (sdtHeader.length memZero 0x1000) 36)
                 = 536870907) by (vm_compute; reflexivity).
    rewrite Hc. apply Z2Nat.id. discriminate. }
  assert (Hq : (sdtHeader.length memZero 0x1000 - sdtHeader.sizeof) / 8 = -5)
    by (vm_compute; reflexivity).
  split; [vm_compute; reflexivity|].
  split; [vm_compute; reflexivity|].
  split; [exact Hq|]. split; [exact Hlen|].
  rewrite Hlen, Hq. discriminate.
Qed.

(** C8: [parseRSDT] never compares the declared length of the root table
    with the header size.  For a mapped root table whose declared length
    [L] is below 36 the 32-bit subtraction wraps to [L + 2^32 - 36], the
    address list gets that value divided by 8 (XSDT) or 4 (RSDT) entries,
    and the walk over them is what [parseRSDT] goes on with. *)
Theorem parseRSDT_short_length_wraps (P : Platform) (m : Memory)
    (drv : acpiDriver) (tr tr1 : Trace) (drv1 : acpiDriver) (header sz : Z) :
  mapACPITable P m drv (rsdtAddr drv) tr = (tr1, drv1, (header, sz, None)) ->
  sdtHeader.length m (rsdtAddr drv) < sdtHeader.sizeof ->
  let L := sdtHeader.length m (rsdtAddr drv) in
  let width := if useXSDT drv then 8 else 4 in
  sdtHeader.sizeof = 36
  /\ payloadLen (sdtHeader.length m header) sz = L + 2 ^ 32 - 36
  /\ entryCount (useXSDT drv1) (payloadLen (sdtHeader.length m header) sz)
     = (L + 2 ^ 32 - 36) / width
  /\ List.length (sdtAddresses m drv1 header sz)
     = Z.to_nat ((L + 2 ^ 32 - 36) / width)
  /\ parseRSDT P m drv tr
     = parseRSDT_visit P m (sdtAddresses m drv1 header sz) drv1 tr1.
Proof.
  intros H Hshort L width.
  destruct (parseRSDT_walks _ _ _ _ _ _ _ _ H) as (Hwalk & -> & -> & Ha & Hx).
  pose proof (sdtHeader_length_range m (rsdtAddr drv)) as HL. fold L in HL.
  fold L in Hshort.
  assert (Hp : payloadLen L sdtHeader.sizeof = L + 2 ^ 32 - 36).
  { rewrite payloadLen_short by lia. reflexivity. }
  fold L. split; [reflexivity|]. split; [exact Hp|].
  split; [rewrite entryCount_div, Hp, Hx; reflexivity|].
  split; [|exact Hwalk].
  unfold sdtAddresses. rewrite readAddresses_length. fold L.
  rewrite entryCount_div, Hp, Hx. reflexivity.
Qed.

(** A root table in zeroed memory declares length 0; it maps without
    error, and the XSDT walk is over 536870907 entries. *)
Lemma parseRSDT_short_length_wraps_witness :
  mapACPITable vmmOk memZero (emptyDriver 0x1000 true) 0x1000 []
  = (traceAfterRoot, driverAfterRoot true, (0x1000, 36, None))
  /\ sdtHeader.length memZero 0x1000 < sdtHeader.sizeof
  /\ payloadLen (sdtHeader.length memZero 0x1000) 36 = 0 + 2 ^ 32 - 36
  /\ entryCount true (payloadLen (sdtHeader.length memZero 0x1000) 36)
     = 536870907.
Proof.
  assert (H : mapACPITable vmmOk memZero (emptyDriver 0x1000 true)
                (rsdtAddr (emptyDriver 0x1000 true)) []
              = (traceAfterRoot, driverAfterRoot true, (0x1000, 36, None)))
    by (vm_compute; reflexivity).
  assert (HL : sdtHeader.length memZero
                 (rsdtAddr (emptyDriver 0x1000 true)) < sdtHeader.sizeof)
    by (vm_compute; reflexivity).
  pose proof (parseRSDT_short_length_wraps vmmOk memZero
                (emptyDriver 0x1000 true) [] traceAfterRoot
                (driverAfterRoot true) 0x1000 36 H HL)
    as (_ & Hp & Hc & _).
  split; [exact H|]. split; [exact HL|]. split; [exact Hp|]. exact Hc.
Defined.

(** *** Session teardown *)

Lemma unmapCalls_cons (p : Z) (r : option Error) (ev : Trace) :
  unmapCalls (EvUnmap p r :: ev) = p :: unmapCalls ev.
Proof. reflexivity. Qed.

Lemma unmapAll_spec (P : Platform) :
  forall (pages : list Z) (tr : Trace) (got : bool),
  exists ev : Trace,
    (unmapAll P pages tr got).1 = tr ++ ev
    /\ unmapCalls ev = pages
    /\ mapCalls ev = [] /\ reclaimCalls ev = [] /\ foundTables ev = []
    /\ ((unmapAll P pages tr got).2 = false
        <-> got = false /\ unmapFailures ev = []).
Proof.
  induction pages as [|page rest IH]; intros tr got; cbn [unmapAll].
  - exists []. cbn. rewrite app_nil_r. repeat split; tauto.
  - destruct (IH (tr ++ [EvUnmap page (unmapFn P tr page)])
                (match unmapFn P tr page with
                 | Some _ => true | None => got end))
      as (ev & Htr & Hu & Hm & Hr & Hf & Hgot).
    exists (EvUnmap page (unmapFn P tr page) :: ev).
    rewrite Htr, <- app_assoc. cbn [app].
    split; [reflexivity|].
    split; [rewrite unmapCalls_cons, Hu; reflexivity|].
    split; [exact Hm|]. split; [exact Hr|]. split; [exact Hf|].
    rewrite Hgot. unfold unmapFailures in *. cbn [omap].
    destruct (unmapFn P tr page); cbn; split; intros [? ?];
      try discriminate; split; assumption.
Qed.

(** The deferred function of [DriverInit] passes every page of the
    reservation set to [unmapFn] once, in the order of the [range] loop,
    and then calls [allocator.ReclaimRegions] exactly when no call of
    [unmapFn] failed. *)
Lemma DriverInit_cleanup_spec (P : Platform) (drv : acpiDriver) (tr : Trace) :
  exists ev : Trace,
    DriverInit_cleanup P drv tr = tr ++ ev
    /\ unmapCalls ev = rangeOrder P (mappedPages drv)
    /\ mapCalls ev = [] /\ foundTables ev = []
    /\ (unmapFailures ev = [] -> reclaimCalls ev = [tt])
    /\ (unmapFailures ev <> [] -> reclaimCalls ev = []).
Proof.
  unfold DriverInit_cleanup.
  destruct (unmapAll_spec P (rangeOrder P (mappedPages drv)) tr false)
    as (ev & Htr & Hu & Hm & Hr & Hf & Hgot).
  destruct (unmapAll P (rangeOrder P (mappedPages drv)) tr false)
    as [tr' got] eqn:E. cbn in Htr, Hgot. subst tr'.
  destruct got; cbn [negb].
  - exists ev. split; [reflexivity|]. split; [exact Hu|].
    split; [exact Hm|]. split; [exact Hf|]. split.
    + intros Hnone. assert (true = false) by (apply Hgot; tauto).
      discriminate.
    + intros _. exact Hr.
  - destruct Hgot as [Hgot _]. destruct (Hgot eq_refl) as [_ Hnone].
    exists (ev ++ [EvReclaim]). rewrite app_assoc.
    rewrite unmapCalls_app, mapCalls_app, foundTables_app, reclaimCalls_app,
      unmapFailures_app, Hu, Hm, Hr, Hf, Hnone. cbn. rewrite app_nil_r.
    repeat split; try reflexivity. intros X. contradiction.
Qed.

(** *** The scan window *)

Lemma land_lt_pow2 (a b n : Z) :
  0 <= a < 2 ^ n -> 0 <= b -> 0 <= Z.land a b < 2 ^ n.
Proof.
  intros Ha Hb.
  assert (H0 : 0 <= Z.land a b) by (apply Z.land_nonneg; lia).
  split; [exact H0|].
  destruct (Z.eq_dec (Z.land a b) 0) as [E|E]; [lia|].
  assert (0 < a).
  { destruct (Z.eq_dec a 0) as [->|]; [rewrite Z.land_0_l in E|]; lia. }
  pose proof (Z.log2_land a b ltac:(lia) Hb).
  apply Z.log2_lt_pow2; [lia|].
  assert (Z.log2 a < n) by (apply Z.log2_lt_pow2; lia). lia.
Qed.

Lemma PageFromAddress_range (P : Platform) (a n : Z) :
  0 <= a < 2 ^ n -> 0 <= PageFromAddress P a < 2 ^ n.
Proof.
  intros Ha. unfold PageFromAddress.
  set (mask := wrap64 (Z.lnot (wrap64 (PageSize P - 1)))).
  assert (Hmask : 0 <= mask) by (apply Z.mod_pos_bound; lia).
  pose proof (land_lt_pow2 a mask n Ha Hmask) as Hl.
  rewrite Z.shiftr_div_pow2 by lia.
  assert (0 < 2 ^ Z.of_N (PageShift P)) by (apply Z.pow_pos_nonneg; lia).
  split; [apply Z.div_pos; lia|].
  apply Z.le_lt_trans with (Z.land a mask); [|lia].
  apply Z.div_le_upper_bound; [lia|]. nia.
Qed.

Lemma locateRSDT_map_spec (P : Platform) :
  forall (fuel : nat) (cur last : Z) (tr : Trace),
    0 <= cur -> last + 1 < 2 ^ 64 ->
  exists ev : Trace,
    (locateRSDT_map P fuel cur last tr).1 = tr ++ ev
    /\ unmapCalls ev = [] /\ reclaimCalls ev = [] /\ foundTables ev = []
    /\ (forall p, p ∈ mapCalls ev -> cur <= p <= last /\ p < cur + Z.of_nat fuel).
Proof.
  induction fuel as [|fuel IH]; intros cur last tr Hcur Hlast;
    cbn [locateRSDT_map].
  - exists []. cbn. rewrite app_nil_r. repeat split; try reflexivity;
      cbn in *; set_solver.
  - destruct (cur <=? last) eqn:Hle.
    2:{ exists []. cbn. rewrite app_nil_r. repeat split; try reflexivity;
          cbn in *; set_solver. }
    apply Z.leb_le in Hle.
    destruct (mapFn P tr cur cur FlagPresent) as [e|].
    + exists [EvMap cur cur FlagPresent (Some e)]. cbn.
      repeat split; try reflexivity;
        apply list_elem_of_singleton in H; lia.
    + assert (Hw : wrap64 (cur + 1) = cur + 1)
        by (unfold wrap64; apply Z.mod_small; lia).
      rewrite Hw.
      destruct (IH (cur + 1) last (tr ++ [EvMap cur cur FlagPresent None])
                  ltac:(lia) Hlast) as (ev & Htr & Hu & Hr & Hf & Hm).
      exists (EvMap cur cur FlagPresent None :: ev).
      rewrite Htr, <- app_assoc. cbn [app].
      split; [reflexivity|]. split; [exact Hu|]. split; [exact Hr|].
      split; [exact Hf|]. intros p Hp. cbn in Hp.
      apply elem_of_cons in Hp as [->|Hp]; [lia|].
      apply Hm in Hp. lia.
Qed.

Lemma locateRSDT_unmap_spec (P : Platform) :
  forall (fuel : nat) (cur last : Z) (tr : Trace),
    0 <= cur -> last + 1 < 2 ^ 64 -> cur + Z.of_nat fuel = last + 1 ->
  exists ev : Trace,
    locateRSDT_unmap P fuel cur last tr = tr ++ ev
    /\ unmapCalls ev = seqZ cur (Z.of_nat fuel)
    /\ mapCalls ev = [] /\ reclaimCalls ev = [] /\ foundTables ev = [].
Proof.
  induction fuel as [|fuel IH]; intros cur last tr Hcur Hlast Hfuel;
    cbn [locateRSDT_unmap].
  - exists []. rewrite app_nil_r. repeat split; reflexivity.
  - replace (cur <=? last) with true by (symmetry; apply Z.leb_le; lia).
    assert (Hw : wrap64 (cur + 1) = cur + 1)
      by (unfold wrap64; apply Z.mod_small; lia).
    rewrite Hw.
    destruct (IH (cur + 1) last (tr ++ [EvUnmap cur (unmapFn P tr cur)])
                ltac:(lia) Hlast ltac:(lia)) as (ev & Htr & Hu & Hm & Hr & Hf).
    exists (EvUnmap cur (unmapFn P tr cur) :: ev).
    rewrite Htr, <- app_assoc. cbn [app].
    split; [reflexivity|]. split; [|repeat split; assumption].
    rewrite seqZ_cons by lia. rewrite unmapCalls_cons, Hu.
    f_equal. f_equal; lia.
Qed.

(** [locateRSDT] maps pages of the scan window only, possibly not all of
    them, and on every path ends by passing each page of the window to
    [unmapFn] once, in ascending order. *)
Lemma locateRSDT_trace (P : Platform) (m : Memory) (tr : Trace) :
  exists setup cleanup : Trace,
    (locateRSDT P m tr).1 = tr ++ setup ++ cleanup
    /\ unmapCalls setup = [] /\ reclaimCalls setup = []
    /\ mapCalls cleanup = [] /\ reclaimCalls cleanup = []
    /\ unmapCalls cleanup
       = seqZ (PageFromAddress P rsdpLocationLow) (Z.of_nat (windowPages P))
    /\ (forall p, p ∈ mapCalls setup -> p ∈ unmapCalls cleanup).
Proof.
  unfold locateRSDT.
  set (first := PageFromAddress P rsdpLocationLow).
  set (last := PageFromAddress P rsdpLocationHi).
  assert (Hfirst : 0 <= first < 2 ^ 20)
    by (apply PageFromAddress_range; unfold rsdpLocationLow; lia).
  assert (Hlast : 0 <= last < 2 ^ 20)
    by (apply PageFromAddress_range; unfold rsdpLocationHi; lia).
  destruct (locateRSDT_map_spec P (windowPages P) first last tr
              ltac:(lia) ltac:(lia)) as (setup & Htr & Hu & Hr & Hf & Hm).
  assert (Hfuel : windowPages P = Z.to_nat (last - first + 1)) by reflexivity.
  assert (Hclean : forall tr1,
             locateRSDT_map P (windowPages P) first last tr = (tr1, None)
             \/ (exists e, locateRSDT_map P (windowPages P) first last tr
                           = (tr1, Some e)) ->
             exists cleanup,
               locateRSDT_unmap P (windowPages P) first last tr1
               = tr ++ setup ++ cleanup
               /\ mapCalls cleanup = [] /\ reclaimCalls cleanup = []
               /\ unmapCalls cleanup = seqZ first (Z.of_nat (windowPages P))).
  { intros tr1 Htr1.
    assert (tr1 = tr ++ setup) as ->.
    { destruct Htr1 as [E|[e E]]; rewrite E in Htr; exact Htr. }
    destruct (Z_le_gt_dec first last) as [Hle|Hgt].
    - destruct (locateRSDT_unmap_spec P (windowPages P) first last
                  (tr ++ setup) ltac:(lia) ltac:(lia) ltac:(lia))
        as (cleanup & Hc & Hcu & Hcm & Hcr & _).
      exists cleanup. rewrite Hc, <- app_assoc. repeat split; assumption.
    - assert (windowPages P = O) as -> by lia.
      exists []. cbn. rewrite !app_nil_r. repeat split; reflexivity. }
  destruct (locateRSDT_map P (windowPages P) first last tr) as [tr1 [e|]] eqn:E;
    cbn [fst];
    (destruct (Hclean tr1) as (cleanup & Hc & Hcm & Hcr & Hcu);
     [eauto|]; exists setup, cleanup; rewrite Hc;
     repeat split; try assumption;
     intros p Hp; rewrite Hcu; apply elem_of_seqZ; apply Hm in Hp; lia).
Qed.

(** C4: the pages of a discovery session are released on every path.
    [locateRSDT] maps pages of the scan window only and, whatever it
    returns, ends by passing every page of the window to [unmapFn].
    [DriverInit] releases nothing while it parses; when it returns, with
    or without an error, every page of the reservation set, which holds
    exactly the pages mapped during the session, has been passed to
    [unmapFn] exactly once, and [allocator.ReclaimRegions] has been
    called if and only if none of these calls failed. *)
Theorem pages_unmapped_on_every_exit (P : Platform) (m : Memory)
    (drv : acpiDriver) (tr : Trace) :
  (forall s : gset Z, rangeOrder P s ≡ₚ elements s) ->
  (exists setup cleanup : Trace,
      (locateRSDT P m tr).1 = tr ++ setup ++ cleanup
      /\ unmapCalls setup = []
      /\ mapCalls cleanup = []
      /\ unmapCalls cleanup
         = seqZ (PageFromAddress P rsdpLocationLow) (Z.of_nat (windowPages P))
      /\ (forall p, p ∈ mapCalls setup -> p ∈ unmapCalls cleanup)
      /\ reclaimCalls (setup ++ cleanup) = [])
  /\ (exists body cleanup : Trace,
         (DriverInit P m drv tr).1.1 = tr ++ body ++ cleanup
         /\ unmapCalls body = [] /\ reclaimCalls body = []
         /\ mapCalls cleanup = []
         /\ mappedPages (DriverInit P m drv tr).1.2
            = list_to_set (mappedOk body)
         /\ NoDup (unmapCalls cleanup)
         /\ (forall p, p ∈ unmapCalls cleanup <-> p ∈ mappedOk body)
         /\ (reclaimCalls cleanup = [tt] <-> unmapFailures cleanup = [])
         /\ (reclaimCalls cleanup = [] <-> unmapFailures cleanup <> [])).
Proof.
  intros Hrange. split.
  - destruct (locateRSDT_trace P m tr)
      as (setup & cleanup & Htr & Hu & Hr & Hm & Hcr & Hcu & Hin).
    exists setup, cleanup. rewrite reclaimCalls_app, Hr, Hcr.
    repeat split; assumption.
  - unfold DriverInit.
    destruct (parseRSDT P m (withMappedPages drv ∅) tr)
      as [[tr1 drv1] err] eqn:Hparse. cbn [fst snd].
    apply parseRSDT_reserves in Hparse.
    destruct Hparse as (body & -> & Hpages & _ & _ & Hu & Hr).
    cbn [withMappedPages mappedPages] in Hpages.
    destruct (DriverInit_cleanup_spec P drv1 (tr ++ body))
      as (cleanup & Hc & Hcu & Hcm & _ & Hsome & Hnone).
    exists body, cleanup. rewrite Hc, <- app_assoc.
    assert (Hset : mappedPages drv1 = list_to_set (mappedOk body))
      by (rewrite Hpages; set_solver).
    split; [reflexivity|]. split; [exact Hu|]. split; [exact Hr|].
    split; [exact Hcm|]. split; [exact Hset|].
    rewrite Hcu. split; [rewrite (Hrange (mappedPages drv1)); apply NoDup_elements|].
    split.
    { intros p. rewrite (Hrange (mappedPages drv1)), elem_of_elements, Hset.
      apply elem_of_list_to_set. }
    destruct (unmapFailures cleanup) as [|f fs] eqn:Hfail.
    + rewrite (Hsome eq_refl). split; split; intros; try reflexivity;
        try discriminate; contradiction.
    + rewrite Hnone by discriminate. split; split; intros; try reflexivity;
        discriminate.
Qed.

(** The session on [memRsdt]: pages 1 and 2 are mapped, one table is
    reported, both pages are unmapped and the regions are reclaimed. *)
Lemma pages_unmapped_on_every_exit_witness :
  (forall s : gset Z, rangeOrder vmmOk s ≡ₚ elements s)
  /\ (exists setup cleanup : Trace,
         (locateRSDT vmmOk memRsdt []).1 = [] ++ setup ++ cleanup
         /\ unmapCalls setup = []
         /\ mapCalls cleanup = []
         /\ unmapCalls cleanup
            = seqZ (PageFromAddress vmmOk rsdpLocationLow)
                (Z.of_nat (windowPages vmmOk))
         /\ (forall p, p ∈ mapCalls setup -> p ∈ unmapCalls cleanup)
         /\ reclaimCalls (setup ++ cleanup) = [])
  /\ (DriverInit vmmOk memRsdt (emptyDriver 0x1000 false) []).1.1
     = [EvMap 1 1 FlagPresent None; EvMap 2 2 FlagPresent None;
        EvFound [x46; x41; x43; x50] 0x1080 36;
        EvUnmap 2 None; EvUnmap 1 None; EvReclaim].
Proof.
  assert (H : forall s : gset Z, rangeOrder vmmOk s ≡ₚ elements s)
    by (intros s; reflexivity).
  split; [exact H|].
  split; [|vm_compute; reflexivity].
  exact (proj1 (pages_unmapped_on_every_exit vmmOk memRsdt
                  (emptyDriver 0x1000 false) [] H)).
Defined.

(** With a failing [unmapFn] the regions are not reclaimed. *)
Example DriverInit_unmap_failure_no_reclaim :
  (DriverInit vmmUnmapFails memRsdt (emptyDriver 0x1000 false) []).1.1
  = [EvMap 1 1 FlagPresent None; EvMap 2 2 FlagPresent None;
     EvFound [x46; x41; x43; x50] 0x1080 36;
     EvUnmap 2 None; EvUnmap 1 (Some (errExternal 9))].
Proof. vm_compute. reflexivity. Qed.

(** *** The scan loop *)

Lemma locateRSDT_scan_step (m : Memory) (fuel : nat) (curPtr : Z) :
  locateRSDT_scan m (S fuel) curPtr
  = if curPtr <? rsdpLocationHi then
      match candidate m curPtr with
      | Some (addr, xsdt) => (addr, xsdt, None)
      | None => locateRSDT_scan m fuel (wrap64 (curPtr + 16))
      end
    else (0, false, Some errMissingRSDP).
Proof.
  cbn [locateRSDT_scan]. unfold candidate.
  destruct (curPtr <? rsdpLocationHi); [|reflexivity].
  destruct (negb (signatureMatches m rsdtSignature curPtr)); [reflexivity|].
  destruct (rsdpDescriptor.revision m curPtr =? rsdpRevisionACPI1).
  - destruct (negb (validTable m curPtr (wrap32 rsdpDescriptor.sizeof)));
      reflexivity.
  - destruct (negb (validTable m curPtr (wrap32 rsdpDescriptor2.sizeof)));
      reflexivity.
Qed.

Lemma candidateAddr_next (k : Z) :
  0 <= k < 8192 ->
  (candidateAddr k <? rsdpLocationHi) = true
  /\ wrap64 (candidateAddr k + 16) = candidateAddr (k + 1).
Proof.
  unfold candidateAddr, rsdpLocationLow, rsdpLocationHi, wrap64. intros H.
  split; [apply Z.ltb_lt; lia|]. rewrite Z.mod_small; lia.
Qed.

(** Candidates that are rejected are passed over. *)
Lemma locateRSDT_scan_skip (m : Memory) :
  forall (k fuel : nat) (j : Z),
    0 <= j -> j + Z.of_nat k <= 8192 ->
    (forall i, j <= i < j + Z.of_nat k -> candidate m (candidateAddr i) = None) ->
    locateRSDT_scan m (k + fuel) (candidateAddr j)
    = locateRSDT_scan m fuel (candidateAddr (j + Z.of_nat k)).
Proof.
  induction k as [|k IH]; intros fuel j Hj Hk Hrej.
  - cbn [Nat.add]. do 2 f_equal. lia.
  - cbn [Nat.add]. rewrite locateRSDT_scan_step.
    destruct (candidateAddr_next j ltac:(lia)) as [-> ->].
    rewrite Hrej by lia. rewrite IH by (try lia; intros; apply Hrej; lia).
    do 2 f_equal. lia.
Qed.

(** The scan returns the verdict of the first candidate that is not
    rejected. *)
Lemma locateRSDT_scan_first (m : Memory) (k : Z) (addr : Z) (xsdt : bool) :
  0 <= k < 8192 ->
  (forall j, 0 <= j < k -> candidate m (candidateAddr j) = None) ->
  candidate m (candidateAddr k) = Some (addr, xsdt) ->
  locateRSDT_scan m windowCandidates rsdpLocationLow = (addr, xsdt, None).
Proof.
  intros Hk Hrej Hacc.
  change rsdpLocationLow with (candidateAddr 0).
  replace windowCandidates
    with (Z.to_nat k + S (Z.to_nat (8191 - k)))%nat
    by (change windowCandidates with (Z.to_nat 8192); lia).
  rewrite locateRSDT_scan_skip by (try lia; intros; apply Hrej; lia).
  rewrite locateRSDT_scan_step.
  replace (0 + Z.of_nat (Z.to_nat k)) with k by lia.
  destruct (candidateAddr_next k Hk) as [-> _]. rewrite Hacc. reflexivity.
Qed.

(** When every candidate is rejected the scan leaves the loop through
    its guard, at the end of the window, and reports the missing root
    pointer; more fuel would not change the outcome. *)
Lemma locateRSDT_scan_none (m : Memory) (extra : nat) :
  (forall j, 0 <= j < 8192 -> candidate m (candidateAddr j) = None) ->
  locateRSDT_scan m (windowCandidates + extra) rsdpLocationLow
  = (0, false, Some errMissingRSDP).
Proof.
  intros Hrej. change rsdpLocationLow with (candidateAddr 0).
  rewrite locateRSDT_scan_skip
    by (change windowCandidates with (Z.to_nat 8192);
        try lia; intros; apply Hrej; lia).
  destruct extra; reflexivity.
Qed.

Lemma locateRSDT_result (P : Platform) (m : Memory) (tr : Trace) :
  (locateRSDT_map P (windowPages P) (PageFromAddress P rsdpLocationLow)
     (PageFromAddress P rsdpLocationHi) tr).2 = None ->
  (locateRSDT P m tr).2 = locateRSDT_scan m windowCandidates rsdpLocationLow.
Proof.
  unfold locateRSDT. intros H.
  destruct (locateRSDT_map P (windowPages P) _ _ tr) as [tr1 [e|]];
    [discriminate | reflexivity].
Qed.

Lemma candidate_signature_mismatch (m : Memory) (curPtr : Z) :
  signatureMatches m rsdtSignature curPtr = false -> candidate m curPtr = None.
Proof. unfold candidate. intros ->. reflexivity. Qed.

(** *** The root pointer locator *)

(** The extended branch of the scan as the code has it: when the scan
    window is mapped and the first candidate that is not rejected has a
    matching signature, a revision byte greater than 0 and a zero byte
    sum over the size Go gives the extended structure (its 36 bytes of
    fields and 4 bytes of padding; the length field is not read),
    [locateRSDT] returns the 64-bit extended root address with the XSDT
    flag set. *)
Lemma locateRSDT_extended (P : Platform) (m : Memory) (tr : Trace) (k : Z) :
  (locateRSDT_map P (windowPages P) (PageFromAddress P rsdpLocationLow)
     (PageFromAddress P rsdpLocationHi) tr).2 = None ->
  0 <= k < 8192 ->
  (forall j, 0 <= j < k -> candidate m (candidateAddr j) = None) ->
  signatureMatches m rsdtSignature (candidateAddr k) = true ->
  0 < rsdpDescriptor.revision m (candidateAddr k) ->
  validTable m (candidateAddr k) rsdpDescriptor2.sizeof = true ->
  (locateRSDT P m tr).2
  = (rsdpDescriptor2.xsdtAddr m (candidateAddr k), true, None).
Proof.
  intros Hmap Hk Hrej Hsig Hrev Hvalid.
  rewrite locateRSDT_result by exact Hmap.
  apply (locateRSDT_scan_first m k); [exact Hk | exact Hrej |].
  unfold candidate. rewrite Hsig. cbn [negb].
  replace (rsdpDescriptor.revision m (candidateAddr k) =? rsdpRevisionACPI1)
    with false by (symmetry; apply Z.eqb_neq; unfold rsdpRevisionACPI1; lia).
  change (wrap32 rsdpDescriptor2.sizeof) with rsdpDescriptor2.sizeof.
  rewrite Hvalid. reflexivity.
Qed.

Lemma locateRSDT_extended_witness :
  (locateRSDT_map vmmOk (windowPages vmmOk)
     (PageFromAddress vmmOk rsdpLocationLow)
     (PageFromAddress vmmOk rsdpLocationHi) []).2 = None
  /\ 0 <= 0 < 8192
  /\ (forall j, 0 <= j < 0 -> candidate memRsdpV2 (candidateAddr j) = None)
  /\ signatureMatches memRsdpV2 rsdtSignature (candidateAddr 0) = true
  /\ 0 < rsdpDescriptor.revision memRsdpV2 (candidateAddr 0)
  /\ validTable memRsdpV2 (candidateAddr 0) rsdpDescriptor2.sizeof = true
  /\ (locateRSDT vmmOk memRsdpV2 []).2
     = (rsdpDescriptor2.xsdtAddr memRsdpV2 (candidateAddr 0), true, None).
Proof.
  assert (H1 : (locateRSDT_map vmmOk (windowPages vmmOk)
                  (PageFromAddress vmmOk rsdpLocationLow)
                  (PageFromAddress vmmOk rsdpLocationHi) []).2 = None)
    by (vm_compute; reflexivity).
  assert (H2 : 0 <= 0 < 8192) by lia.
  assert (H3 : forall j, 0 <= j < 0 ->
                         candidate memRsdpV2 (candidateAddr j) = None)
    by (intros j Hj; lia).
  assert (H4 : signatureMatches memRsdpV2 rsdtSignature (candidateAddr 0)
               = true) by (vm_compute; reflexivity).
  assert (H5 : 0 < rsdpDescriptor.revision memRsdpV2 (candidateAddr 0))
    by (vm_compute; reflexivity).
  assert (H6 : validTable memRsdpV2 (candidateAddr 0) rsdpDescriptor2.sizeof
               = true) by (vm_compute; reflexivity).
  repeat (split; [assumption|]).
  exact (locateRSDT_extended vmmOk memRsdpV2 [] 0 H1 H2 H3 H4 H5 H6).
Defined.

(** C1 (what the code does at a failing input): the only candidate of
    [memRsdpV2Tail] has the signature, revision 2, declared length 36,
    extended root address 0x2000 and a zero byte sum both over its first
    20 bytes and over the 36 bytes it declares.  [locateRSDT] adds up 40
    bytes, the size of the Go structure with its 4 bytes of padding, so
    the byte that follows the root pointer enters the sum: the candidate
    is skipped and the missing root pointer is reported instead of
    address 0x2000 with the XSDT flag. *)
Theorem locateRSDT_rejects_padded_checksum :
  signatureMatches memRsdpV2Tail rsdtSignature rsdpLocationLow = true
  /\ rsdpDescriptor.revision memRsdpV2Tail rsdpLocationLow = 2
  /\ rsdpDescriptor2.length memRsdpV2Tail rsdpLocationLow = 36
  /\ rsdpDescriptor2.xsdtAddr memRsdpV2Tail rsdpLocationLow = 0x2000
  /\ validTable memRsdpV2Tail rsdpLocationLow rsdpDescriptor.sizeof = true
  /\ validTable memRsdpV2Tail rsdpLocationLow
       (rsdpDescriptor2.length memRsdpV2Tail rsdpLocationLow) = true
  /\ rsdpDescriptor2.sizeof = 40
  /\ validTable memRsdpV2Tail rsdpLocationLow rsdpDescriptor2.sizeof = false
  /\ (locateRSDT vmmOk memRsdpV2Tail []).2 = (0, false, Some errMissingRSDP).
Proof.
  split; [vm_compute; reflexivity|].
  split; [vm_compute; reflexivity|].
  split; [vm_compute; reflexivity|].
  split; [vm_compute; reflexivity|].
  split; [vm_compute; reflexivity|].
  split; [vm_compute; reflexivity|].
  split; [reflexivity|].
  split; [vm_compute; reflexivity|].
  vm_compute. reflexivity.
Qed.

(** With zero bytes after it the same root pointer is accepted. *)
Example locateRSDT_accepts_zero_tail :
  (locateRSDT vmmOk memRsdpV2 []).2 = (0x2000, true, None).
Proof. vm_compute. reflexivity. Qed.

(** C2 (as amended): when the scan window is mapped and the first
    candidate that is not rejected has a matching signature, revision 0
    and a zero byte sum over the 20 bytes of the ACPI 1.0 structure,
    [locateRSDT] returns its 32-bit root table address with the XSDT
    flag cleared.  The 20-byte checksum is consulted for revision 0
    only. *)
Theorem locateRSDT_acpi1 (P : Platform) (m : Memory) (tr : Trace) (k : Z) :
  (locateRSDT_map P (windowPages P) (PageFromAddress P rsdpLocationLow)
     (PageFromAddress P rsdpLocationHi) tr).2 = None ->
  0 <= k < 8192 ->
  (forall j, 0 <= j < k -> candidate m (candidateAddr j) = None) ->
  signatureMatches m rsdtSignature (candidateAddr k) = true ->
  rsdpDescriptor.revision m (candidateAddr k) = 0 ->
  validTable m (candidateAddr k) rsdpDescriptor.sizeof = true ->
  (locateRSDT P m tr).2
  = (rsdpDescriptor.rsdtAddr m (candidateAddr k), false, None).
Proof.
  intros Hmap Hk Hrej Hsig Hrev Hvalid.
  rewrite locateRSDT_result by exact Hmap.
  apply (locateRSDT_scan_first m k); [exact Hk | exact Hrej |].
  unfold candidate. rewrite Hsig, Hrev. cbn [negb].
  change (0 =? rsdpRevisionACPI1) with true. cbv iota.
  change (wrap32 rsdpDescriptor.sizeof) with rsdpDescriptor.sizeof.
  rewrite Hvalid. reflexivity.
Qed.

Lemma locateRSDT_acpi1_witness :
  (locateRSDT_map vmmOk (windowPages vmmOk)
     (PageFromAddress vmmOk rsdpLocationLow)
     (PageFromAddress vmmOk rsdpLocationHi) []).2 = None
  /\ 0 <= 0 < 8192
  /\ (forall j, 0 <= j < 0 -> candidate memRsdpV1 (candidateAddr j) = None)
  /\ signatureMatches memRsdpV1 rsdtSignature (candidateAddr 0) = true
  /\ rsdpDescriptor.revision memRsdpV1 (candidateAddr 0) = 0
  /\ validTable memRsdpV1 (candidateAddr 0) rsdpDescriptor.sizeof = true
  /\ (locateRSDT vmmOk memRsdpV1 []).2
     = (rsdpDescriptor.rsdtAddr memRsdpV1 (candidateAddr 0), false, None).
Proof.
  assert (H1 : (locateRSDT_map vmmOk (windowPages vmmOk)
                  (PageFromAddress vmmOk rsdpLocationLow)
                  (PageFromAddress vmmOk rsdpLocationHi) []).2 = None)
    by (vm_compute; reflexivity).
  assert (H2 : 0 <= 0 < 8192) by lia.
  assert (H3 : forall j, 0 <= j < 0 ->
                         candidate memRsdpV1 (candidateAddr j) = None)
    by (intros j Hj; lia).
  assert (H4 : signatureMatches memRsdpV1 rsdtSignature (candidateAddr 0)
               = true) by (vm_compute; reflexivity).
  assert (H5 : rsdpDescriptor.revision memRsdpV1 (candidateAddr 0) = 0)
    by (vm_compute; reflexivity).
  assert (H6 : validTable memRsdpV1 (candidateAddr 0) rsdpDescriptor.sizeof
               = true) by (vm_compute; reflexivity).
  repeat (split; [assumption|]).
  exact (locateRSDT_acpi1 vmmOk memRsdpV1 [] 0 H1 H2 H3 H4 H5 H6).
Defined.

(** C2 fails as stated: the only candidate of [memRsdpV2] has a matching
    signature and a valid checksum over its first 20 bytes, and
    [locateRSDT] does not return its 32-bit root address 0x1000 with the
    flag cleared; the revision is 2, so it returns the extended address
    0x2000 with the flag set. *)
Lemma locateRSDT_v1_checksum_cex :
  signatureMatches memRsdpV2 rsdtSignature rsdpLocationLow = true
  /\ validTable memRsdpV2 rsdpLocationLow rsdpDescriptor.sizeof = true
  /\ rsdpDescriptor.rsdtAddr memRsdpV2 rsdpLocationLow = 0x1000
  /\ (locateRSDT vmmOk memRsdpV2 []).2 = (0x2000, true, None)
  /\ (locateRSDT vmmOk memRsdpV2 []).2
     <> (rsdpDescriptor.rsdtAddr memRsdpV2 rsdpLocationLow, false, None).
Proof.
  split; [vm_compute; reflexivity|].
  split; [vm_compute; reflexivity|].
  split; [vm_compute; reflexivity|].
  assert (H : (locateRSDT vmmOk memRsdpV2 []).2 = (0x2000, true, None))
    by (vm_compute; reflexivity).
  split; [exact H|]. rewrite H. discriminate.
Qed.

(** *** The probe function *)

(** C9 (as amended): [probeForACPI] returns the nil driver exactly when
    [locateRSDT] returns an error, and otherwise a driver that stores
    the address and the width flag that [locateRSDT] returned; when the
    scan window is mapped and no candidate in it has a matching
    signature, that error is the missing root pointer. *)
Theorem probeForACPI_spec (P : Platform) (m : Memory) (tr trL : Trace)
    (addr : Z) (xsdt : bool) (err : option Error) :
  locateRSDT P m tr = (trL, (addr, xsdt, err)) ->
  (probeForACPI P m tr = (trL, None) <-> err <> None)
  /\ (err = None ->
      probeForACPI P m tr
      = (trL, Some {| mappedPages := ∅; rsdtAddr := addr; useXSDT := xsdt |}))
  /\ ((locateRSDT_map P (windowPages P) (PageFromAddress P rsdpLocationLow)
         (PageFromAddress P rsdpLocationHi) tr).2 = None ->
      (forall k, 0 <= k < 8192 ->
                 signatureMatches m rsdtSignature (candidateAddr k) = false) ->
      err = Some errMissingRSDP /\ probeForACPI P m tr = (trL, None)).
Proof.
  intros Hloc. unfold probeForACPI. rewrite Hloc.
  split; [|split].
  - destruct err; split; intros H; try reflexivity; try discriminate.
    contradiction.
  - intros ->. reflexivity.
  - intros Hmap Hsig.
    pose proof (locateRSDT_result P m tr Hmap) as Hres.
    rewrite Hloc in Hres. cbn [snd] in Hres.
    rewrite <- (Nat.add_0_r windowCandidates) in Hres.
    rewrite locateRSDT_scan_none in Hres
      by (intros j Hj; apply candidate_signature_mismatch, Hsig, Hj).
    inversion Hres; subst. split; reflexivity.
Qed.

Lemma memZero_no_signature (p : Z) :
  signatureMatches memZero rsdtSignature p = false.
Proof. reflexivity. Qed.

Lemma probeForACPI_spec_witness :
  exists trL : Trace,
    locateRSDT vmmOk memZero [] = (trL, (0, false, Some errMissingRSDP))
    /\ (probeForACPI vmmOk memZero [] = (trL, None)
        <-> Some errMissingRSDP <> None)
    /\ probeForACPI vmmOk memZero [] = (trL, None).
Proof.
  eexists.
  assert (H : locateRSDT vmmOk memZero []
              = ((locateRSDT vmmOk memZero []).1,
                 (0, false, Some errMissingRSDP)))
    by (vm_compute; reflexivity).
  split; [exact H|].
  pose proof (probeForACPI_spec vmmOk memZero []
                (locateRSDT vmmOk memZero []).1 0 false
                (Some errMissingRSDP) H) as (Hiff & _ & Hmissing).
  split; [exact Hiff|].
  apply Hmissing.
  - vm_compute; reflexivity.
  - intros k _. apply memZero_no_signature.
Defined.

(** C9 fails as stated: on [vmmMapFails] no candidate of the zeroed scan
    window has a matching signature, and [locateRSDT] fails with the
    error of [mapFn], which is not the missing root pointer. *)
Lemma locateRSDT_map_failure_cex :
  (forall k, 0 <= k < 8192 ->
             signatureMatches memZero rsdtSignature (candidateAddr k) = false)
  /\ (locateRSDT vmmMapFails memZero []).2
     = (0, false, Some (errExternal 7))
  /\ (locateRSDT vmmMapFails memZero []).2 <> (0, false, Some errMissingRSDP)
  /\ (probeForACPI vmmMapFails memZero []).2 = None.
Proof.
  split; [intros k _; apply memZero_no_signature|].
  assert (H : (locateRSDT vmmMapFails memZero []).2
              = (0, false, Some (errExternal 7))) by (vm_compute; reflexivity).
  split; [exact H|]. split; [rewrite H; discriminate|].
  vm_compute; reflexivity.
Qed.

(** ** Further properties of the checksum validator *)

Lemma validTable_eq (m : Memory) (p len : Z) :
  0 <= len < 2 ^ 32 ->
  validTable m p len = (byteSum m p 0 (Z.to_nat len) mod 2 ^ 8 =? 0).
Proof.
  intros Hlen. unfold validTable.
  rewrite (validTable_loop_sum m p len) by lia.
  destruct (0 <? Z.of_nat (Z.to_nat len)) eqn:E; [reflexivity|].
  apply Z.ltb_ge in E. assert (Z.to_nat len = O) as -> by lia. reflexivity.
Qed.

Lemma byteSum_frame (m m' : Memory) (p : Z) :
  forall (n : nat) (i : Z),
    (forall j, i <= j < i + Z.of_nat n ->
               m (wrap64 (p + j)) = m' (wrap64 (p + j))) ->
    byteSum m p i n = byteSum m' p i n.
Proof.
  induction n as [|n IH]; intros i H; cbn [byteSum]; [reflexivity|].
  unfold load8. rewrite (H i) by lia. f_equal.
  apply IH. intros j Hj. apply H. lia.
Qed.

(** [validTable] reads the bytes of [tablePtr, tablePtr + tableLength)
    and nothing else: two memories that agree on the range get the same
    verdict. *)
Theorem validTable_reads_range_only (m m' : Memory) (tablePtr tableLength : Z) :
  0 <= tableLength < 2 ^ 32 ->
  (forall i, 0 <= i < tableLength ->
             m (wrap64 (tablePtr + i)) = m' (wrap64 (tablePtr + i))) ->
  validTable m tablePtr tableLength = validTable m' tablePtr tableLength.
Proof.
  intros Hlen Hagree. rewrite !validTable_eq by exact Hlen.
  rewrite (byteSum_frame m m' tablePtr (Z.to_nat tableLength) 0);
    [reflexivity|].
  intros j Hj. apply Hagree. lia.
Qed.

Lemma validTable_reads_range_only_witness :
  0 <= 20 < 2 ^ 32
  /\ (forall i, 0 <= i < 20 ->
                memRsdpV2 (wrap64 (rsdpLocationLow + i))
                = memRsdpV2Tail (wrap64 (rsdpLocationLow + i)))
  /\ validTable memRsdpV2 rsdpLocationLow 20
     = validTable memRsdpV2Tail rsdpLocationLow 20.
Proof.
  assert (H1 : 0 <= 20 < 2 ^ 32) by lia.
  assert (H2 : forall i, 0 <= i < 20 ->
                         memRsdpV2 (wrap64 (rsdpLocationLow + i))
                         = memRsdpV2Tail (wrap64 (rsdpLocationLow + i))).
  { intros i Hi.
    assert (Hc : i = 0 \/ i = 1 \/ i = 2 \/ i = 3 \/ i = 4 \/ i = 5 \/ i = 6
                 \/ i = 7 \/ i = 8 \/ i = 9 \/ i = 10 \/ i = 11 \/ i = 12
                 \/ i = 13 \/ i = 14 \/ i = 15 \/ i = 16 \/ i = 17 \/ i = 18
                 \/ i = 19) by lia.
    repeat (destruct Hc as [->|Hc]; [reflexivity|]). subst i. reflexivity. }
  split; [exact H1|]. split; [exact H2|].
  exact (validTable_reads_range_only memRsdpV2 memRsdpV2Tail
           rsdpLocationLow 20 H1 H2).
Defined.

Lemma byteZ_byteOfZ (z : Z) : 0 <= z < 256 -> byteZ (byteOfZ z) = z.
Proof.
  intros Hz. unfold byteZ, byteOfZ.
  pose proof (Byte.to_of_N_option_map (Z.to_N z)) as H.
  replace (Z.to_N z <=? 255)%N with true in H
    by (symmetry; apply N.leb_le; lia).
  destruct (Byte.of_N (Z.to_N z)) as [b|]; cbn in H; [|discriminate].
  inversion H as [Hb]. rewrite Hb. lia.
Qed.

(** For every table and every byte position in it there is exactly one
    byte value at that position that makes [validTable] accept the
    table: the checksum byte exists and is unique. *)
Theorem validTable_checksum_byte_unique (m : Memory) (tablePtr tableLength k : Z) :
  0 <= tableLength < 2 ^ 32 ->
  0 <= k < tableLength ->
  exists b : byte,
    validTable (store8 m (wrap64 (tablePtr + k)) b) tablePtr tableLength = true
    /\ forall b' : byte,
         validTable (store8 m (wrap64 (tablePtr + k)) b') tablePtr tableLength
         = true -> b' = b.
Proof.
  intros Hlen Hk.
  set (a := wrap64 (tablePtr + k)).
  set (S0 := byteSum m tablePtr 0 (Z.to_nat tableLength)).
  assert (Hsum : forall b,
             validTable (store8 m a b) tablePtr tableLength = true
             <-> (S0 + (byteZ b - load8 m a)) mod 2 ^ 8 = 0).
  { intros b. rewrite validTable_eq by exact Hlen. rewrite Z.eqb_eq.
    subst a. rewrite byteSum_store8 by lia.
    replace ((0 <=? k) && (k <? 0 + Z.of_nat (Z.to_nat tableLength)))
      with true
      by (symmetry; apply andb_true_iff; split;
          [apply Z.leb_le | apply Z.ltb_lt]; lia).
    reflexivity. }
  pose proof (load8_range m a) as Hold. change (2 ^ 8) with 256 in *.
  exists (byteOfZ ((load8 m a - S0) mod 256)). split.
  - apply Hsum. rewrite byteZ_byteOfZ by (apply Z.mod_pos_bound; lia).
    Z.div_mod_to_equations. lia.
  - intros b' Hb'. apply Hsum in Hb'. apply byteZ_inj.
    rewrite byteZ_byteOfZ by (apply Z.mod_pos_bound; lia).
    pose proof (byteZ_range b'). Z.div_mod_to_equations. lia.
Qed.

Lemma validTable_checksum_byte_unique_witness :
  0 <= 20 < 2 ^ 32 /\ 0 <= 8 < 20
  /\ exists b : byte,
       validTable (store8 memZero (wrap64 (rsdpLocationLow + 8)) b)
         rsdpLocationLow 20 = true
       /\ forall b' : byte,
            validTable (store8 memZero (wrap64 (rsdpLocationLow + 8)) b')
              rsdpLocationLow 20 = true -> b' = b.
Proof.
  split; [lia|]. split; [lia|].
  apply (validTable_checksum_byte_unique memZero rsdpLocationLow 20 8); lia.
Defined.

Lemma byteSum_app (m : Memory) (p : Z) :
  forall (a b : nat) (i : Z),
    byteSum m p i (a + b) = byteSum m p i a + byteSum m p (i + Z.of_nat a) b.
Proof.
  induction a as [|a IH]; intros b i.
  - cbn [Nat.add byteSum]. replace (i + Z.of_nat 0) with i by lia. lia.
  - cbn [Nat.add byteSum]. rewrite IH.
    replace (i + 1 + Z.of_nat a) with (i + Z.of_nat (S a)) by lia. lia.
Qed.

Lemma byteSum_shift (m : Memory) (p a : Z) :
  forall (n : nat) (i : Z),
    byteSum m p (a + i) n = byteSum m (wrap64 (p + a)) i n.
Proof.
  induction n as [|n IH]; intros i; cbn [byteSum]; [reflexivity|].
  replace (a + i + 1) with (a + (i + 1)) by lia. rewrite IH. f_equal.
  f_equal. unfold wrap64. rewrite Zplus_mod_idemp_l. f_equal. lia.
Qed.

(** Checksums compose: once the first [n1] bytes of a table sum to
    zero, the table of [n1 + n2] bytes is valid exactly when the [n2]
    bytes that follow are.  (This is how the 20-byte and the 40-byte
    check of a root pointer relate.) *)
Theorem validTable_extends (m : Memory) (tablePtr n1 n2 : Z) :
  0 <= n1 -> 0 <= n2 -> n1 + n2 < 2 ^ 32 ->
  validTable m tablePtr n1 = true ->
  validTable m tablePtr (n1 + n2) = validTable m (wrap64 (tablePtr + n1)) n2.
Proof.
  intros H1 H2 Hlt Hvalid.
  rewrite validTable_eq in Hvalid by lia. apply Z.eqb_eq in Hvalid.
  rewrite !validTable_eq by lia.
  replace (Z.to_nat (n1 + n2)) with (Z.to_nat n1 + Z.to_nat n2)%nat by lia.
  rewrite byteSum_app.
  replace (0 + Z.of_nat (Z.to_nat n1)) with (n1 + 0) by lia.
  rewrite byteSum_shift.
  rewrite <- Zplus_mod_idemp_l, Hvalid. reflexivity.
Qed.

Lemma validTable_extends_witness :
  0 <= 20 /\ 0 <= 20 /\ 20 + 20 < 2 ^ 32
  /\ validTable memRsdpV2 rsdpLocationLow 20 = true
  /\ validTable memRsdpV2 rsdpLocationLow (20 + 20)
     = validTable memRsdpV2 (wrap64 (rsdpLocationLow + 20)) 20.
Proof.
  assert (H : validTable memRsdpV2 rsdpLocationLow 20 = true)
    by (vm_compute; reflexivity).
  split; [lia|]. split; [lia|]. split; [lia|]. split; [exact H|].
  apply (validTable_extends memRsdpV2 rsdpLocationLow 20 20); [lia..|exact H].
Defined.

(** ** Further properties of the page reservation mapper *)

Lemma page_of_byte (ps startAddr size a : Z) :
  0 < ps -> startAddr <= a < startAddr + size ->
  startAddr / ps <= a / ps <= (startAddr + size - 1) / ps + 1.
Proof.
  intros Hps Ha. split; [apply Z.div_le_mono; lia|].
  assert (a / ps <= (startAddr + size - 1) / ps)
    by (apply Z.div_le_mono; lia). lia.
Qed.

(** A successful [mapRegion] leaves every page of its loop, from the
    page of [startAddr] to the page after the one of the last byte, in
    the reservation set. *)
Lemma mapRegion_covers_pages (P : Platform) (drv : acpiDriver)
    (startAddr size : Z) (tr tr' : Trace) (drv' : acpiDriver) :
  Z.of_N (PageShift P) < 64 ->
  0 <= startAddr -> 0 <= size -> startAddr + size + PageSize P < 2 ^ 64 ->
  mapRegion P drv startAddr size tr = (tr', drv', None) ->
  forall p,
    startAddr / PageSize P <= p <= (startAddr + size - 1) / PageSize P + 1 ->
    p ∈ mappedPages drv'.
Proof.
  intros Hs Ha Hsize Hfit H. unfold mapRegion in H.
  destruct (mapRegion_page_range P startAddr size Hs Ha Hsize ltac:(lia))
    as [Hfirst Hlast].
  rewrite Hfirst, Hlast in H.
  pose proof (PageSize_pow2 P) as Hps.
  assert (H0 : 0 < PageSize P)
    by (rewrite Hps; apply Z.pow_pos_nonneg; lia).
  assert (H1 : 0 <= startAddr / PageSize P) by (apply Z.div_pos; lia).
  assert (H2 : startAddr / PageSize P - 1
               <= (startAddr + size - 1) / PageSize P).
  { replace (startAddr / PageSize P - 1)
      with ((startAddr + (-1) * PageSize P) / PageSize P)
      by (rewrite Z.div_add by lia; lia).
    apply Z.div_le_mono; lia. }
  assert (H3 : (startAddr + size - 1) / PageSize P <= startAddr + size - 1).
  { destruct (Z.eq_dec (startAddr + size) 0) as [E|E].
    - assert ((startAddr + size - 1) / PageSize P < 0)
        by (apply Z.div_lt_upper_bound; lia). lia.
    - apply Z.div_le_upper_bound; nia. }
  destruct (mapRegion_loop P _ _ _ tr (mappedPages drv))
    as [[tr1 pages1] err1] eqn:Hloop.
  inversion H; subst; clear H. cbn [mappedPages withMappedPages].
  intros p Hp. eapply mapRegion_loop_covers; [| | |exact Hloop|]; lia.
Qed.

(** A successful [mapRegion] whose address arithmetic does not overflow
    leaves the page of [startAddr] and the page of every byte of
    [startAddr, startAddr + size) in the reservation set: the region is
    mapped, as the comment of the function promises. *)
Theorem mapRegion_covers_range (P : Platform) (drv : acpiDriver)
    (startAddr size : Z) (tr tr' : Trace) (drv' : acpiDriver) :
  Z.of_N (PageShift P) < 64 ->
  0 <= startAddr -> 0 <= size -> startAddr + size + PageSize P < 2 ^ 64 ->
  mapRegion P drv startAddr size tr = (tr', drv', None) ->
  startAddr / PageSize P ∈ mappedPages drv'
  /\ forall a, startAddr <= a < startAddr + size ->
               a / PageSize P ∈ mappedPages drv'.
Proof.
  intros Hs Ha Hsize Hfit H.
  pose proof (mapRegion_covers_pages P drv startAddr size tr tr' drv'
                Hs Ha Hsize Hfit H) as Hcov.
  pose proof (PageSize_pow2 P) as Hps.
  assert (H0 : 0 < PageSize P)
    by (rewrite Hps; apply Z.pow_pos_nonneg; lia).
  split.
  - apply Hcov. split; [lia|].
    assert (startAddr / PageSize P - 1
            <= (startAddr + size - 1) / PageSize P).
    { replace (startAddr / PageSize P - 1)
        with ((startAddr + (-1) * PageSize P) / PageSize P)
        by (rewrite Z.div_add by lia; lia).
      apply Z.div_le_mono; lia. }
    lia.
  - intros a Hrange. apply Hcov. apply page_of_byte; assumption.
Qed.

Lemma mapRegion_covers_range_witness :
  Z.of_N (PageShift vmmOk) < 64
  /\ 0 <= 0x1000 /\ 0 <= 36 /\ 0x1000 + 36 + PageSize vmmOk < 2 ^ 64
  /\ mapRegion vmmOk (emptyDriver 0x1000 false) 0x1000 36 []
     = (traceAfterRoot, driverAfterRoot false, None)
  /\ 0x1000 / PageSize vmmOk ∈ mappedPages (driverAfterRoot false)
  /\ forall a, 0x1000 <= a < 0x1000 + 36 ->
               a / PageSize vmmOk ∈ mappedPages (driverAfterRoot false).
Proof.
  assert (H1 : Z.of_N (PageShift vmmOk) < 64) by (vm_compute; reflexivity).
  assert (H2 : 0x1000 + 36 + PageSize vmmOk < 2 ^ 64)
    by (vm_compute; reflexivity).
  assert (H3 : mapRegion vmmOk (emptyDriver 0x1000 false) 0x1000 36 []
               = (traceAfterRoot, driverAfterRoot false, None))
    by (vm_compute; reflexivity).
  split; [exact H1|]. split; [lia|]. split; [lia|]. split; [exact H2|].
  split; [exact H3|].
  exact (mapRegion_covers_range vmmOk (emptyDriver 0x1000 false) 0x1000 36
           [] traceAfterRoot (driverAfterRoot false) H1 ltac:(lia) ltac:(lia)
           H2 H3).
Defined.

(** When [startAddr + size + PageSize - 1] overflows the 64-bit address
    space (and [size] leaves room for two pages), the rounded end wraps
    below the start, the loop of [mapRegion] does not run, and the call
    reports success without mapping or recording any page. *)
Theorem mapRegion_overflow_maps_nothing (P : Platform) (drv : acpiDriver)
    (startAddr size : Z) (tr : Trace) :
  Z.of_N (PageShift P) < 64 ->
  0 <= startAddr < 2 ^ 64 -> 0 <= size ->
  size + 2 * PageSize P <= 2 ^ 64 ->
  2 ^ 64 <= startAddr + size + PageSize P - 1 ->
  mapRegion P drv startAddr size tr = (tr, drv, None).
Proof.
  intros Hs Ha Hsize Hroom Hover.
  destruct (page_mask P Hs) as [Hm1 Hmask].
  pose proof (PageSize_pow2 P) as Hps.
  assert (H0 : 0 < PageSize P)
    by (rewrite Hps; apply Z.pow_pos_nonneg; lia).
  set (w := startAddr + size + PageSize P - 1 - 2 ^ 64).
  assert (Hw : wrap64 (wrap64 (startAddr + size) + (PageSize P - 1)) = w).
  { unfold wrap64. rewrite Zplus_mod_idemp_l.
    replace (startAddr + size + (PageSize P - 1)) with (w + 1 * 2 ^ 64)
      by (subst w; lia).
    rewrite Z.mod_add by lia. apply Z.mod_small. subst w. lia. }
  assert (Hdiv : forall x, 0 <= x < 2 ^ 64 ->
             PageFromAddress P (Z.land x (2 ^ 64 - PageSize P))
             = x / PageSize P).
  { intros x Hx. rewrite Hps. rewrite land_page_mask by lia.
    rewrite PageFromAddress_div; [|exact Hs|].
    - rewrite Hps, Z.mul_comm, Z.div_mul by lia. reflexivity.
    - rewrite <- Hps. pose proof (Z.mul_div_le x _ H0).
      assert (0 <= x / PageSize P) by (apply Z.div_pos; lia). nia. }
  assert (Hfirst : mapRegion_first P startAddr = startAddr / PageSize P).
  { unfold mapRegion_first. cbv zeta. rewrite Hmask. apply Hdiv. lia. }
  assert (Hlast : mapRegion_last P startAddr size = w / PageSize P).
  { unfold mapRegion_last. cbv zeta. rewrite Hmask, Hm1, Hw. apply Hdiv.
    subst w. lia. }
  assert (Hlt : w / PageSize P + 1 <= startAddr / PageSize P).
  { replace (w / PageSize P + 1) with ((w + 1 * PageSize P) / PageSize P)
      by (rewrite Z.div_add by lia; reflexivity).
    apply Z.div_le_mono; [lia|]. subst w. lia. }
  unfold mapRegion. rewrite Hfirst, Hlast.
  replace (Z.to_nat (w / PageSize P - startAddr / PageSize P + 1)) with O
    by lia.
  cbn [mapRegion_loop]. destruct drv; reflexivity.
Qed.

Lemma mapRegion_overflow_maps_nothing_witness :
  Z.of_N (PageShift vmmOk) < 64
  /\ 0 <= 2 ^ 64 - 4096 < 2 ^ 64 /\ 0 <= 4096
  /\ 4096 + 2 * PageSize vmmOk <= 2 ^ 64
  /\ 2 ^ 64 <= 2 ^ 64 - 4096 + 4096 + PageSize vmmOk - 1
  /\ mapRegion vmmOk (emptyDriver 0 true) (2 ^ 64 - 4096) 4096 []
     = ([], emptyDriver 0 true, None).
Proof.
  assert (H1 : Z.of_N (PageShift vmmOk) < 64) by (vm_compute; reflexivity).
  assert (H2 : 4096 + 2 * PageSize vmmOk <= 2 ^ 64)
    by (vm_compute; discriminate).
  assert (H3 : 2 ^ 64 <= 2 ^ 64 - 4096 + 4096 + PageSize vmmOk - 1)
    by (vm_compute; discriminate).
  split; [exact H1|]. split; [lia|]. split; [lia|]. split; [exact H2|].
  split; [exact H3|].
  exact (mapRegion_overflow_maps_nothing vmmOk (emptyDriver 0 true)
           (2 ^ 64 - 4096) 4096 [] H1 ltac:(lia) ltac:(lia) H2 H3).
Defined.

Lemma mapRegion_loop_failure (P : Platform) :
  forall (fuel : nat) (cur last : Z) (tr : Trace) (pages : gset Z)
         (tr' : Trace) (pages' : gset Z) (e : Error),
    mapRegion_loop P fuel cur last tr pages = (tr', pages', Some e) ->
    exists (ev : Trace) (p : Z),
      tr' = tr ++ ev ++ [EvMap p p FlagPresent (Some e)]
      /\ mapFn P (tr ++ ev) p p FlagPresent = Some e
      /\ mapCalls ev = mappedOk ev
      /\ pages' = list_to_set (mappedOk ev) ∪ pages
      /\ p ∉ pages'.
Proof.
  induction fuel as [|fuel IH]; intros cur last tr pages tr' pages' e H;
    cbn [mapRegion_loop] in H; [discriminate|].
  destruct (cur <=? last); [|discriminate].
  destruct (decide (cur ∈ pages)) as [Hin|Hnin].
  { apply IH in H. exact H. }
  destruct (mapFn P tr cur cur FlagPresent) as [e0|] eqn:Hmap.
  - inversion H; subst. exists [], cur. rewrite app_nil_r. cbn.
    repeat split; try assumption; try reflexivity; set_solver.
  - apply IH in H. destruct H as (ev & p & -> & Hfail & Hok & -> & Hp).
    exists (EvMap cur cur FlagPresent None :: ev), p.
    rewrite <- !app_assoc in *. cbn [app] in *.
    split; [reflexivity|]. split; [exact Hfail|].
    split; [unfold mapCalls, mappedOk in *; cbn; rewrite Hok; reflexivity|].
    split; [cbn; set_solver|]. cbn in *. set_solver.
Qed.

(** A failing [mapRegion] ends the trace with the failed [mapFn] call. *)
Lemma mapRegion_fails_at (P : Platform) (drv : acpiDriver)
    (startAddr size : Z) (tr tr' : Trace) (drv' : acpiDriver) (e : Error) :
  mapRegion P drv startAddr size tr = (tr', drv', Some e) ->
  exists (pre : Trace) (p : Z),
    tr' = pre ++ [EvMap p p FlagPresent (Some e)]
    /\ mapFn P pre p p FlagPresent = Some e
    /\ p ∉ mappedPages drv'.
Proof.
  unfold mapRegion. intros H.
  destruct (mapRegion_loop P _ _ _ tr (mappedPages drv))
    as [[tr1 pages1] err1] eqn:Hloop.
  inversion H; subst; clear H.
  apply mapRegion_loop_failure in Hloop.
  destruct Hloop as (ev & p & -> & Hm & _ & _ & Hp).
  exists (tr ++ ev), p. rewrite <- app_assoc. cbn.
  repeat split; assumption.
Qed.

(** When [mapRegion] fails, the error is the one [mapFn] returned in its
    last call, which is the last event; every earlier call of this
    [mapRegion] succeeded and its page stays in the reservation set (so
    that the session can release it), and the page that failed is not
    recorded. *)
Theorem mapRegion_failure (P : Platform) (drv : acpiDriver)
    (startAddr size : Z) (tr tr' : Trace) (drv' : acpiDriver) (e : Error) :
  mapRegion P drv startAddr size tr = (tr', drv', Some e) ->
  exists (ev : Trace) (p : Z),
    tr' = tr ++ ev ++ [EvMap p p FlagPresent (Some e)]
    /\ mapFn P (tr ++ ev) p p FlagPresent = Some e
    /\ mapCalls ev = mappedOk ev
    /\ mappedPages drv' = list_to_set (mappedOk ev) ∪ mappedPages drv
    /\ p ∉ mappedPages drv'.
Proof.
  unfold mapRegion. intros H.
  destruct (mapRegion_loop P _ _ _ tr (mappedPages drv))
    as [[tr1 pages1] err1] eqn:Hloop.
  inversion H; subst; clear H.
  apply mapRegion_loop_failure in Hloop.
  destruct Hloop as (ev & p & ? & ? & ? & ? & ?).
  exists ev, p. cbn. repeat split; assumption.
Qed.

Lemma mapRegion_failure_witness :
  mapRegion vmmMapFails (emptyDriver 0 false) 0 1 []
  = ([EvMap 0 0 FlagPresent (Some (errExternal 7))], emptyDriver 0 false,
     Some (errExternal 7))
  /\ exists (ev : Trace) (p : Z),
       [EvMap 0 0 FlagPresent (Some (errExternal 7))]
       = [] ++ ev ++ [EvMap p p FlagPresent (Some (errExternal 7))]
       /\ mapFn vmmMapFails ([] ++ ev) p p FlagPresent = Some (errExternal 7)
       /\ mapCalls ev = mappedOk ev
       /\ mappedPages (emptyDriver 0 false)
          = list_to_set (mappedOk ev) ∪ mappedPages (emptyDriver 0 false)
       /\ p ∉ mappedPages (emptyDriver 0 false).
Proof.
  assert (H : mapRegion vmmMapFails (emptyDriver 0 false) 0 1 []
              = ([EvMap 0 0 FlagPresent (Some (errExternal 7))],
                 emptyDriver 0 false, Some (errExternal 7)))
    by (vm_compute; reflexivity).
  split; [exact H|].
  exact (mapRegion_failure vmmMapFails (emptyDriver 0 false) 0 1 [] _ _ _ H).
Defined.

(** ** Session discipline: identity mapping, each page mapped once *)

Lemma mapsOnce_app (pages : gset Z) (ev1 ev2 : Trace) :
  mapsOnce pages ev1 ->
  mapsOnce (list_to_set (mappedOk ev1) ∪ pages) ev2 ->
  mapsOnce pages (ev1 ++ ev2).
Proof.
  intros [N1 F1] [N2 F2]. unfold mapsOnce. rewrite mappedOk_app. split.
  - apply NoDup_app. split; [exact N1|]. split; [|exact N2].
    intros p Hp1 Hp2. apply F2 in Hp2. set_solver.
  - intros p Hp. apply elem_of_app in Hp as [Hp|Hp]; [auto|].
    apply F2 in Hp. set_solver.
Qed.

Lemma disciplined_refl (tr : Trace) (drv : acpiDriver) :
  disciplined tr drv tr drv [].
Proof.
  split; [apply reserves_refl|]. split; [constructor|].
  split; [constructor | intros p Hp; cbn in Hp; set_solver].
Qed.

Lemma disciplined_trans (tr tr1 tr2 : Trace) (drv drv1 drv2 : acpiDriver)
    (ev1 ev2 : Trace) :
  disciplined tr drv tr1 drv1 ev1 ->
  disciplined tr1 drv1 tr2 drv2 ev2 ->
  disciplined tr drv tr2 drv2 (ev1 ++ ev2).
Proof.
  intros (R1 & I1 & M1) (R2 & I2 & M2).
  split; [eapply reserves_trans; eassumption|].
  split; [apply Forall_app; split; assumption|].
  apply mapsOnce_app; [exact M1|].
  destruct R1 as (_ & Hp & _). rewrite <- Hp. exact M2.
Qed.

Lemma disciplined_found (tr : Trace) (drv : acpiDriver) (sig : list byte)
    (addr len : Z) :
  disciplined tr drv (tr ++ [EvFound sig addr len]) drv [EvFound sig addr len].
Proof.
  split; [apply reserves_found|]. split; [repeat constructor|].
  split; [constructor | intros p Hp; cbn in Hp; set_solver].
Qed.

Lemma mapRegion_loop_disciplined (P : Platform) :
  forall (fuel : nat) (cur last : Z) (tr : Trace) (pages : gset Z)
         (tr' : Trace) (pages' : gset Z) (err : option Error),
    mapRegion_loop P fuel cur last tr pages = (tr', pages', err) ->
    exists ev : Trace,
      tr' = tr ++ ev /\ identityMapped ev /\ mapsOnce pages ev.
Proof.
  induction fuel as [|fuel IH]; intros cur last tr pages tr' pages' err H;
    cbn [mapRegion_loop] in H.
  - inversion H; subst. exists []. rewrite app_nil_r.
    split; [reflexivity|]. split; [constructor|].
    split; [constructor | intros p Hp; cbn in Hp; set_solver].
  - destruct (cur <=? last).
    2:{ inversion H; subst. exists []. rewrite app_nil_r.
        split; [reflexivity|]. split; [constructor|].
        split; [constructor | intros p Hp; cbn in Hp; set_solver]. }
    destruct (decide (cur ∈ pages)) as [Hin|Hnin].
    { apply IH in H. exact H. }
    destruct (mapFn P tr cur cur FlagPresent) as [e|] eqn:Hmap.
    + inversion H; subst.
      exists [EvMap cur cur FlagPresent (Some e)].
      split; [reflexivity|]. split; [repeat constructor|].
      split; [constructor | intros p Hp; cbn in Hp; set_solver].
    + apply IH in H. destruct H as (ev & -> & Hid & [Hnd Hfresh]).
      exists (EvMap cur cur FlagPresent None :: ev).
      rewrite <- app_assoc. cbn [app].
      split; [reflexivity|]. split; [constructor; [reflexivity|exact Hid]|].
      split.
      * change (mappedOk (EvMap cur cur FlagPresent None :: ev))
          with (cur :: mappedOk ev).
        constructor; [|exact Hnd]. intros Hc. apply Hfresh in Hc. set_solver.
      * intros p Hp.
        change (mappedOk (EvMap cur cur FlagPresent None :: ev))
          with (cur :: mappedOk ev) in Hp.
        apply elem_of_cons in Hp as [->|Hp]; [exact Hnin|].
        apply Hfresh in Hp. set_solver.
Qed.

Lemma mapRegion_disciplined (P : Platform) (drv : acpiDriver)
    (startAddr size : Z) (tr tr' : Trace) (drv' : acpiDriver)
    (err : option Error) :
  mapRegion P drv startAddr size tr = (tr', drv', err) ->
  exists ev : Trace, disciplined tr drv tr' drv' ev /\ foundTables ev = [].
Proof.
  intros H. destruct (mapRegion_reserves _ _ _ _ _ _ _ _ H) as (ev & R & F).
  unfold mapRegion in H.
  destruct (mapRegion_loop P _ _ _ tr (mappedPages drv))
    as [[tr1 pages1] err1] eqn:Hloop.
  inversion H; subst; clear H.
  apply mapRegion_loop_disciplined in Hloop.
  destruct Hloop as (ev' & Htr & Hid & Hm).
  destruct R as (Htr' & Hrest). rewrite Htr in Htr'.
  apply app_inv_head in Htr'. subst ev'.
  exists ev. split; [|exact F].
  split; [split; [exact Htr | exact Hrest]|]. split; assumption.
Qed.

Lemma mapACPITable_disciplined (P : Platform) (m : Memory) (drv : acpiDriver)
    (tableAddr : Z) (tr tr' : Trace) (drv' : acpiDriver)
    (res : Z * Z * option Error) :
  mapACPITable P m drv tableAddr tr = (tr', drv', res) ->
  exists ev : Trace, disciplined tr drv tr' drv' ev /\ foundTables ev = [].
Proof.
  unfold mapACPITable. intros H.
  destruct (mapRegion P drv tableAddr sdtHeader.sizeof tr)
    as [[tr1 drv1] e1] eqn:H1.
  pose proof (mapRegion_disciplined _ _ _ _ _ _ _ _ H1) as (ev1 & D1 & F1).
  destruct e1 as [e1|].
  { inversion H; subst. exists ev1. split; assumption. }
  destruct (mapRegion P drv1 tableAddr (sdtHeader.length m tableAddr) tr1)
    as [[tr2 drv2] e2] eqn:H2.
  pose proof (mapRegion_disciplined _ _ _ _ _ _ _ _ H2) as (ev2 & D2 & F2).
  assert (D : exists ev, disciplined tr drv tr2 drv2 ev /\ foundTables ev = []).
  { exists (ev1 ++ ev2). split; [eapply disciplined_trans; eassumption|].
    rewrite foundTables_app, F1, F2. reflexivity. }
  destruct e2 as [e2|]; [inversion H; subst; exact D|].
  destruct (negb (validTable m tableAddr (sdtHeader.length m tableAddr)));
    inversion H; subst; exact D.
Qed.

Lemma parseRSDT_visit_disciplined (P : Platform) (m : Memory) :
  forall (addrs : list Z) (drv : acpiDriver) (tr tr' : Trace)
         (drv' : acpiDriver) (err : option Error),
    parseRSDT_visit P m addrs drv tr = (tr', drv', err) ->
    exists ev : Trace, disciplined tr drv tr' drv' ev.
Proof.
  induction addrs as [|addr rest IH]; intros drv tr tr' drv' err H;
    cbn [parseRSDT_visit] in H.
  - inversion H; subst. exists []. apply disciplined_refl.
  - destruct (mapACPITable P m drv addr tr) as [[tr1 drv1] [[h sz] e]] eqn:Hm.
    pose proof (mapACPITable_disciplined _ _ _ _ _ _ _ _ Hm) as (ev1 & D1 & _).
    destruct e as [e|].
    + destruct (decide (e = errTableChecksumMismatch)).
      * apply IH in H. destruct H as (ev2 & D2).
        exists (ev1 ++ ev2). eapply disciplined_trans; eassumption.
      * inversion H; subst. exists ev1. exact D1.
    + apply IH in H. destruct H as (ev2 & D2).
      eexists. eapply disciplined_trans; [exact D1|].
      eapply disciplined_trans; [apply disciplined_found | exact D2].
Qed.

Lemma parseRSDT_disciplined (P : Platform) (m : Memory) (drv : acpiDriver)
    (tr tr' : Trace) (drv' : acpiDriver) (err : option Error) :
  parseRSDT P m drv tr = (tr', drv', err) ->
  exists ev : Trace, disciplined tr drv tr' drv' ev.
Proof.
  unfold parseRSDT. intros H.
  destruct (mapACPITable P m drv (rsdtAddr drv) tr)
    as [[tr1 drv1] [[h sz] e]] eqn:Hm.
  pose proof (mapACPITable_disciplined _ _ _ _ _ _ _ _ Hm) as (ev1 & D1 & _).
  destruct e as [e|].
  - inversion H; subst. exists ev1. exact D1.
  - apply parseRSDT_visit_disciplined in H. destruct H as (ev2 & D2).
    exists (ev1 ++ ev2). eapply disciplined_trans; eassumption.
Qed.

Lemma identityMapped_no_maps (ev : Trace) :
  mapCalls ev = [] -> identityMapped ev.
Proof.
  induction ev as [|e ev IH]; intros H; [constructor|].
  destruct e; [discriminate| | |];
    (constructor; [exact I | apply IH; exact H]).
Qed.

(** During [DriverInit] every successful [mapFn] call is for a page
    that is not mapped yet, and the teardown passes to [unmapFn] exactly
    the pages that were mapped, each once: the successful map calls and
    the unmap calls of a session are the same pages, counted with
    multiplicity. *)
Theorem DriverInit_maps_unmaps_balanced (P : Platform) (m : Memory)
    (drv : acpiDriver) (tr : Trace) :
  (forall s : gset Z, rangeOrder P s ≡ₚ elements s) ->
  exists body cleanup : Trace,
    (DriverInit P m drv tr).1.1 = tr ++ body ++ cleanup
    /\ NoDup (mappedOk body)
    /\ unmapCalls body = []
    /\ mapCalls cleanup = []
    /\ unmapCalls cleanup ≡ₚ mappedOk body.
Proof.
  intros Hrange. unfold DriverInit.
  destruct (parseRSDT P m (withMappedPages drv ∅) tr)
    as [[tr1 drv1] err] eqn:Hparse. cbn [fst snd].
  apply parseRSDT_disciplined in Hparse.
  destruct Hparse as (body & (-> & Hpages & _ & _ & Hu & _) & _ & [Hnd _]).
  cbn [withMappedPages mappedPages] in Hpages.
  destruct (DriverInit_cleanup_spec P drv1 (tr ++ body))
    as (cleanup & Hc & Hcu & Hcm & _).
  exists body, cleanup. rewrite Hc, <- app_assoc.
  split; [reflexivity|]. split; [exact Hnd|]. split; [exact Hu|].
  split; [exact Hcm|].
  rewrite Hcu, (Hrange (mappedPages drv1)), Hpages.
  rewrite (right_id_L ∅ (∪)). apply elements_list_to_set. exact Hnd.
Qed.

Lemma DriverInit_maps_unmaps_balanced_witness :
  (forall s : gset Z, rangeOrder vmmOk s ≡ₚ elements s)
  /\ exists body cleanup : Trace,
       (DriverInit vmmOk memRsdt (emptyDriver 0x1000 false) []).1.1
       = [] ++ body ++ cleanup
       /\ NoDup (mappedOk body)
       /\ unmapCalls body = []
       /\ mapCalls cleanup = []
       /\ unmapCalls cleanup ≡ₚ mappedOk body.
Proof.
  assert (H : forall s : gset Z, rangeOrder vmmOk s ≡ₚ elements s)
    by (intros s; reflexivity).
  split; [exact H|].
  exact (DriverInit_maps_unmaps_balanced vmmOk memRsdt
           (emptyDriver 0x1000 false) [] H).
Defined.

Lemma locateRSDT_map_order (P : Platform) :
  forall (fuel : nat) (cur last : Z) (tr : Trace),
    0 <= cur -> last + 1 < 2 ^ 64 -> cur + Z.of_nat fuel = last + 1 ->
    exists (ev : Trace) (n : Z),
      (locateRSDT_map P fuel cur last tr).1 = tr ++ ev
      /\ identityMapped ev
      /\ 0 <= n <= Z.of_nat fuel
      /\ mapCalls ev = seqZ cur n
      /\ ((locateRSDT_map P fuel cur last tr).2 = None ->
          n = Z.of_nat fuel /\ mappedOk ev = mapCalls ev)
      /\ (forall e, (locateRSDT_map P fuel cur last tr).2 = Some e ->
            exists pre : Trace,
              ev = pre ++ [EvMap (cur + n - 1) (cur + n - 1) FlagPresent
                             (Some e)]
              /\ mappedOk pre = mapCalls pre
              /\ mapFn P (tr ++ pre) (cur + n - 1) (cur + n - 1) FlagPresent
                 = Some e).
Proof.
  induction fuel as [|fuel IH]; intros cur last tr Hcur Hlast Hfuel;
    cbn [locateRSDT_map].
  - exists [], 0. cbn. rewrite app_nil_r.
    split; [reflexivity|]. split; [constructor|]. split; [lia|].
    split; [reflexivity|]. split; [intros _; split; reflexivity|].
    intros e He. discriminate.
  - replace (cur <=? last) with true by (symmetry; apply Z.leb_le; lia).
    destruct (mapFn P tr cur cur FlagPresent) as [e0|] eqn:Hmap.
    + exists [EvMap cur cur FlagPresent (Some e0)], 1. cbn [fst snd].
      split; [reflexivity|]. split; [repeat constructor|]. split; [lia|].
      split; [reflexivity|]. split; [intros He; discriminate|].
      intros e He. inversion He; subst. exists [].
      replace (cur + 1 - 1) with cur by lia. rewrite app_nil_r.
      split; [reflexivity|]. split; [reflexivity | exact Hmap].
    + assert (Hw : wrap64 (cur + 1) = cur + 1)
        by (unfold wrap64; apply Z.mod_small; lia).
      rewrite Hw.
      destruct (IH (cur + 1) last (tr ++ [EvMap cur cur FlagPresent None])
                  ltac:(lia) Hlast ltac:(lia))
        as (ev & n & Htr & Hid & Hn & Hcalls & Hok & Hfail).
      exists (EvMap cur cur FlagPresent None :: ev), (n + 1).
      rewrite Htr, <- app_assoc. cbn [app].
      split; [reflexivity|]. split; [constructor; [reflexivity|exact Hid]|].
      split; [lia|]. split.
      { change (mapCalls (EvMap cur cur FlagPresent None :: ev))
          with (cur :: mapCalls ev).
        rewrite Hcalls, (seqZ_cons cur (n + 1)) by lia.
        f_equal. f_equal; lia. }
      split.
      { intros Hnone. destruct (Hok Hnone) as [-> Hmo]. split; [lia|].
        change (mappedOk (EvMap cur cur FlagPresent None :: ev))
          with (cur :: mappedOk ev).
        change (mapCalls (EvMap cur cur FlagPresent None :: ev))
          with (cur :: mapCalls ev).
        rewrite Hmo. reflexivity. }
      intros e He. destruct (Hfail e He) as (pre & -> & Hpre & Hm).
      exists (EvMap cur cur FlagPresent None :: pre).
      replace (cur + (n + 1) - 1) with (cur + 1 + n - 1) by lia.
      split; [reflexivity|]. split.
      * change (mappedOk (EvMap cur cur FlagPresent None :: pre))
          with (cur :: mappedOk pre).
        change (mapCalls (EvMap cur cur FlagPresent None :: pre))
          with (cur :: mapCalls pre).
        rewrite Hpre. reflexivity.
      * rewrite <- app_assoc in Hm. exact Hm.
Qed.

Lemma locateRSDT_map_identity (P : Platform) :
  forall (fuel : nat) (cur last : Z) (tr : Trace),
  exists ev : Trace,
    (locateRSDT_map P fuel cur last tr).1 = tr ++ ev /\ identityMapped ev.
Proof.
  induction fuel as [|fuel IH]; intros cur last tr; cbn [locateRSDT_map].
  - exists []. cbn. rewrite app_nil_r. split; [reflexivity | constructor].
  - destruct (cur <=? last).
    2:{ exists []. cbn. rewrite app_nil_r. split; [reflexivity | constructor]. }
    destruct (mapFn P tr cur cur FlagPresent) as [e|].
    + exists [EvMap cur cur FlagPresent (Some e)]. cbn.
      split; [reflexivity | repeat constructor].
    + destruct (IH (wrap64 (cur + 1)) last
                  (tr ++ [EvMap cur cur FlagPresent None])) as (ev & Hev & Hid).
      exists (EvMap cur cur FlagPresent None :: ev).
      rewrite Hev, <- app_assoc.
      split; [reflexivity | constructor; [reflexivity | exact Hid]].
Qed.

(** The mapping phase of [locateRSDT] passes the pages of the scan
    window to [mapFn] in ascending order, each to the frame of the same
    number, and stops at the first call that fails.  When a call fails,
    [locateRSDT] returns address 0, the flag cleared and the error of
    that call, without scanning; when none fails, every page of the
    window has been mapped once before the scan. *)
Theorem locateRSDT_mapping_phase (P : Platform) (m : Memory) (tr : Trace) :
  exists (setup : Trace) (n : Z),
    (locateRSDT_map P (windowPages P) (PageFromAddress P rsdpLocationLow)
       (PageFromAddress P rsdpLocationHi) tr).1 = tr ++ setup
    /\ identityMapped setup
    /\ 0 <= n <= Z.of_nat (windowPages P)
    /\ mapCalls setup = seqZ (PageFromAddress P rsdpLocationLow) n
    /\ ((locateRSDT P m tr).2.2 = None ->
        n = Z.of_nat (windowPages P) /\ mappedOk setup = mapCalls setup)
    /\ (forall e,
          (locateRSDT_map P (windowPages P) (PageFromAddress P rsdpLocationLow)
             (PageFromAddress P rsdpLocationHi) tr).2 = Some e ->
          (locateRSDT P m tr).2 = (0, false, Some e)
          /\ exists pre p,
               setup = pre ++ [EvMap p p FlagPresent (Some e)]
               /\ mappedOk pre = mapCalls pre
               /\ mapFn P (tr ++ pre) p p FlagPresent = Some e).
Proof.
  set (first := PageFromAddress P rsdpLocationLow).
  set (last := PageFromAddress P rsdpLocationHi).
  assert (Hfirst : 0 <= first < 2 ^ 20)
    by (apply PageFromAddress_range; unfold rsdpLocationLow; lia).
  assert (Hlast : 0 <= last < 2 ^ 20)
    by (apply PageFromAddress_range; unfold rsdpLocationHi; lia).
  assert (Hfuel : windowPages P = Z.to_nat (last - first + 1)) by reflexivity.
  assert (Hmain : exists (ev : Trace) (n : Z),
             (locateRSDT_map P (windowPages P) first last tr).1 = tr ++ ev
             /\ identityMapped ev
             /\ 0 <= n <= Z.of_nat (windowPages P)
             /\ mapCalls ev = seqZ first n
             /\ ((locateRSDT_map P (windowPages P) first last tr).2 = None ->
                 n = Z.of_nat (windowPages P) /\ mappedOk ev = mapCalls ev)
             /\ (forall e,
                   (locateRSDT_map P (windowPages P) first last tr).2 = Some e ->
                   exists pre : Trace,
                     ev = pre ++ [EvMap (first + n - 1) (first + n - 1)
                                    FlagPresent (Some e)]
                     /\ mappedOk pre = mapCalls pre
                     /\ mapFn P (tr ++ pre) (first + n - 1) (first + n - 1)
                          FlagPresent = Some e)).
  { destruct (Z_le_gt_dec first last) as [Hle|Hgt].
    - apply locateRSDT_map_order; lia.
    - assert (windowPages P = O) as -> by lia. exists [], 0. cbn.
      rewrite app_nil_r. split; [reflexivity|]. split; [constructor|].
      split; [lia|]. split; [reflexivity|].
      split; [intros _; split; reflexivity|]. intros e He. discriminate. }
  destruct Hmain as (ev & n & Htr & Hid & Hn & Hcalls & Hok & Hfail).
  exists ev, n. split; [exact Htr|]. split; [exact Hid|]. split; [exact Hn|].
  split; [exact Hcalls|]. split.
  - intros Hres. apply Hok. unfold locateRSDT in Hres. fold first last in Hres.
    destruct (locateRSDT_map P (windowPages P) first last tr) as [tr1 [e|]];
      [cbn in Hres; discriminate | reflexivity].
  - intros e He. split.
    + unfold locateRSDT. fold first last.
      destruct (locateRSDT_map P (windowPages P) first last tr) as [tr1 r].
      cbn in He. subst r. reflexivity.
    + destruct (Hfail e He) as (pre & Hev & Hpre & Hm).
      exists pre, (first + n - 1). repeat split; assumption.
Qed.

Lemma locateRSDT_unmap_no_maps (P : Platform) :
  forall (fuel : nat) (cur last : Z) (tr : Trace),
  exists ev : Trace,
    locateRSDT_unmap P fuel cur last tr = tr ++ ev /\ mapCalls ev = [].
Proof.
  induction fuel as [|fuel IH]; intros cur last tr; cbn [locateRSDT_unmap].
  - exists []. rewrite app_nil_r. split; reflexivity.
  - destruct (cur <=? last).
    + destruct (IH (wrap64 (cur + 1)) last
                  (tr ++ [EvUnmap cur (unmapFn P tr cur)])) as (ev & Hev & Hm).
      exists (EvUnmap cur (unmapFn P tr cur) :: ev).
      rewrite Hev, <- app_assoc. split; [reflexivity | exact Hm].
    + exists []. rewrite app_nil_r. split; reflexivity.
Qed.

(** Both [DriverInit] and [locateRSDT] map by identity: every call of
    [mapFn] they make maps a page to the frame with the same number. *)
Theorem sessions_map_by_identity (P : Platform) (m : Memory)
    (drv : acpiDriver) (tr : Trace) :
  (exists ev : Trace,
      (DriverInit P m drv tr).1.1 = tr ++ ev /\ identityMapped ev)
  /\ (exists ev : Trace,
         (locateRSDT P m tr).1 = tr ++ ev /\ identityMapped ev).
Proof.
  split.
  - unfold DriverInit.
    destruct (parseRSDT P m (withMappedPages drv ∅) tr)
      as [[tr1 drv1] err] eqn:Hparse. cbn [fst snd].
    apply parseRSDT_disciplined in Hparse.
    destruct Hparse as (body & (-> & _) & Hid & _).
    destruct (DriverInit_cleanup_spec P drv1 (tr ++ body))
      as (cleanup & Hc & _ & Hcm & _).
    exists (body ++ cleanup). rewrite Hc, <- app_assoc.
    split; [reflexivity|]. apply Forall_app. split; [exact Hid|].
    apply identityMapped_no_maps. exact Hcm.
  - destruct (locateRSDT_map_identity P (windowPages P)
                (PageFromAddress P rsdpLocationLow)
                (PageFromAddress P rsdpLocationHi) tr) as (setup & Hmap & Hid).
    unfold locateRSDT.
    destruct (locateRSDT_map P (windowPages P)
                (PageFromAddress P rsdpLocationLow)
                (PageFromAddress P rsdpLocationHi) tr) as [tr1 r].
    cbn [fst] in Hmap. subst tr1.
    destruct (locateRSDT_unmap_no_maps P (windowPages P)
                (PageFromAddress P rsdpLocationLow)
                (PageFromAddress P rsdpLocationHi) (tr ++ setup))
      as (cleanup & Hc & Hcm).
    exists (setup ++ cleanup). split.
    + destruct r; cbn [fst]; rewrite Hc, <- app_assoc; reflexivity.
    + apply Forall_app. split; [exact Hid|].
      apply identityMapped_no_maps. exact Hcm.
Qed.

(** ** Further properties of the table mapper *)

(** A successful [mapACPITable] consists of two successful calls of
    [mapRegion], for the header and for the declared length, and a
    valid checksum. *)
Lemma mapACPITable_success_regions (P : Platform) (m : Memory)
    (drv : acpiDriver) (tableAddr : Z) (tr tr' : Trace) (drv' : acpiDriver)
    (header sz : Z) :
  mapACPITable P m drv tableAddr tr = (tr', drv', (header, sz, None)) ->
  exists (tr1 : Trace) (drv1 : acpiDriver),
    mapRegion P drv tableAddr sdtHeader.sizeof tr = (tr1, drv1, None)
    /\ mapRegion P drv1 tableAddr (sdtHeader.length m tableAddr) tr1
       = (tr', drv', None)
    /\ mappedPages drv1 ⊆ mappedPages drv'.
Proof.
  unfold mapACPITable. intros H.
  destruct (mapRegion P drv tableAddr sdtHeader.sizeof tr)
    as [[tr1 drv1] e1] eqn:H1.
  destruct e1 as [e1|]; [discriminate|].
  destruct (mapRegion P drv1 tableAddr (sdtHeader.length m tableAddr) tr1)
    as [[tr2 drv2] e2] eqn:H2.
  destruct e2 as [e2|]; [discriminate|].
  destruct (negb (validTable m tableAddr (sdtHeader.length m tableAddr)));
    [discriminate|]. inversion H; subst; clear H.
  exists tr1, drv1. split; [first [reflexivity | assumption]|].
  split; [first [reflexivity | assumption]|].
  destruct (mapRegion_reserves _ _ _ _ _ _ _ _ H2)
    as (ev2 & (_ & Hpages & _) & _).
  rewrite Hpages. set_solver.
Qed.

(** When [mapACPITable] succeeds (and the address arithmetic does not
    overflow), the header it returns is the table address, the table
    passes its checksum over the declared length, and every byte of the
    header and of the declared table lies in a reserved page. *)
Theorem mapACPITable_success_covers (P : Platform) (m : Memory)
    (drv : acpiDriver) (tableAddr : Z) (tr tr' : Trace) (drv' : acpiDriver)
    (header sz : Z) :
  Z.of_N (PageShift P) < 64 ->
  0 <= tableAddr ->
  tableAddr + Z.max sdtHeader.sizeof (sdtHeader.length m tableAddr)
  + PageSize P < 2 ^ 64 ->
  mapACPITable P m drv tableAddr tr = (tr', drv', (header, sz, None)) ->
  header = tableAddr /\ sz = sdtHeader.sizeof
  /\ validTable m tableAddr (sdtHeader.length m tableAddr) = true
  /\ forall a,
       tableAddr <= a
       < tableAddr + Z.max sdtHeader.sizeof (sdtHeader.length m tableAddr) ->
       a / PageSize P ∈ mappedPages drv'.
Proof.
  intros Hs Ha Hfit H.
  pose proof (sdtHeader_length_range m tableAddr) as HL.
  pose proof (mapACPITable_spec _ _ _ _ _ _ _ _ _ _ H) as (_ & Hsz & Hok).
  destruct (Hok eq_refl) as [Hh Hv].
  split; [exact Hh|]. split; [exact Hsz|]. split; [exact Hv|].
  destruct (mapACPITable_success_regions _ _ _ _ _ _ _ _ _ H)
    as (tr1 & drv1 & H1 & H2 & Hsub).
  pose proof (PageSize_pow2 P) as Hps.
  assert (H0 : 0 < PageSize P)
    by (rewrite Hps; apply Z.pow_pos_nonneg; lia).
  unfold sdtHeader.sizeof in *.
  pose proof (mapRegion_covers_pages P drv tableAddr 36 tr tr1 drv1 Hs Ha
                ltac:(lia) ltac:(lia) H1) as Hc1.
  pose proof (mapRegion_covers_pages P drv1 tableAddr
                (sdtHeader.length m tableAddr) tr1 tr' drv' Hs Ha
                ltac:(lia) ltac:(lia) H2) as Hc2.
  intros a Hrange.
  destruct (Z_lt_le_dec a (tableAddr + sdtHeader.length m tableAddr)).
  - apply Hc2. apply page_of_byte; lia.
  - apply Hsub. apply Hc1. apply page_of_byte; lia.
Qed.

Lemma mapACPITable_success_covers_witness :
  Z.of_N (PageShift vmmOk) < 64
  /\ 0 <= 0x1080
  /\ 0x1080 + Z.max sdtHeader.sizeof (sdtHeader.length memRsdt 0x1080)
     + PageSize vmmOk < 2 ^ 64
  /\ mapACPITable vmmOk memRsdt (emptyDriver 0x1000 false) 0x1080 []
     = (traceAfterRoot, driverAfterRoot false, (0x1080, 36, None))
  /\ validTable memRsdt 0x1080 (sdtHeader.length memRsdt 0x1080) = true
  /\ forall a,
       0x1080 <= a
       < 0x1080 + Z.max sdtHeader.sizeof (sdtHeader.length memRsdt 0x1080) ->
       a / PageSize vmmOk ∈ mappedPages (driverAfterRoot false).
Proof.
  assert (H1 : Z.of_N (PageShift vmmOk) < 64) by (vm_compute; reflexivity).
  assert (H2 : 0x1080 + Z.max sdtHeader.sizeof
                          (sdtHeader.length memRsdt 0x1080)
               + PageSize vmmOk < 2 ^ 64) by (vm_compute; reflexivity).
  assert (H3 : mapACPITable vmmOk memRsdt (emptyDriver 0x1000 false) 0x1080 []
               = (traceAfterRoot, driverAfterRoot false, (0x1080, 36, None)))
    by (vm_compute; reflexivity).
  split; [exact H1|]. split; [lia|]. split; [exact H2|]. split; [exact H3|].
  destruct (mapACPITable_success_covers vmmOk memRsdt
              (emptyDriver 0x1000 false) 0x1080 [] traceAfterRoot
              (driverAfterRoot false) 0x1080 36 H1 ltac:(lia) H2 H3)
    as (_ & _ & Hv & Hc).
  split; [exact Hv | exact Hc].
Defined.

(** An error of [mapACPITable] comes with a nil header and has one of
    two origins: it is the error that [mapFn] returned in the last call
    recorded in the trace, or it is the checksum mismatch of a table
    that failed [validTable] after its pages had been mapped (these
    pages stay reserved). *)
Theorem mapACPITable_error_origin (P : Platform) (m : Memory)
    (drv : acpiDriver) (tableAddr : Z) (tr tr' : Trace) (drv' : acpiDriver)
    (header sz : Z) (e : Error) :
  mapACPITable P m drv tableAddr tr = (tr', drv', (header, sz, Some e)) ->
  header = 0
  /\ ((exists (pre : Trace) (p : Z),
          tr' = pre ++ [EvMap p p FlagPresent (Some e)]
          /\ mapFn P pre p p FlagPresent = Some e
          /\ p ∉ mappedPages drv')
      \/ (e = errTableChecksumMismatch
          /\ validTable m tableAddr (sdtHeader.length m tableAddr) = false
          /\ exists tr1 drv1,
               mapRegion P drv tableAddr sdtHeader.sizeof tr
               = (tr1, drv1, None)
               /\ mapRegion P drv1 tableAddr (sdtHeader.length m tableAddr) tr1
                  = (tr', drv', None))).
Proof.
  unfold mapACPITable. intros H.
  destruct (mapRegion P drv tableAddr sdtHeader.sizeof tr)
    as [[tr1 drv1] e1] eqn:H1.
  destruct e1 as [e1|].
  { inversion H; subst. split; [reflexivity|]. left.
    destruct (mapRegion_fails_at _ _ _ _ _ _ _ _ H1)
      as (pre & p & -> & Hm & Hp).
    exists pre, p. repeat split; assumption. }
  destruct (mapRegion P drv1 tableAddr (sdtHeader.length m tableAddr) tr1)
    as [[tr2 drv2] e2] eqn:H2.
  destruct e2 as [e2|].
  { inversion H; subst. split; [reflexivity|]. left.
    destruct (mapRegion_fails_at _ _ _ _ _ _ _ _ H2)
      as (pre & p & -> & Hm & Hp).
    exists pre, p. repeat split; assumption. }
  destruct (validTable m tableAddr (sdtHeader.length m tableAddr)) eqn:Hv;
    cbn [negb] in H; [discriminate|].
  inversion H; subst. split; [reflexivity|]. right.
  split; [reflexivity|]. split; [reflexivity|].
  exists tr1, drv1. split; [reflexivity | exact H2].
Qed.

Lemma mapACPITable_error_origin_witness :
  mapACPITable vmmOk memRsdt (driverAfterRoot false) 0x1040 traceAfterRoot
  = (traceAfterRoot, driverAfterRoot false,
     (0, 36, Some errTableChecksumMismatch))
  /\ validTable memRsdt 0x1040 (sdtHeader.length memRsdt 0x1040) = false.
Proof.
  assert (H : mapACPITable vmmOk memRsdt (driverAfterRoot false) 0x1040
                traceAfterRoot
              = (traceAfterRoot, driverAfterRoot false,
                 (0, 36, Some errTableChecksumMismatch)))
    by (vm_compute; reflexivity).
  split; [exact H|].
  destruct (mapACPITable_error_origin vmmOk memRsdt (driverAfterRoot false)
              0x1040 traceAfterRoot traceAfterRoot (driverAfterRoot false)
              0 36 errTableChecksumMismatch H) as [_ [Hmap|Hsum]].
  - destruct Hmap as (pre & p & Htr & Hm & _). vm_compute in Hm. discriminate.
  - destruct Hsum as (_ & Hv & _). exact Hv.
Defined.

Lemma mapRegion_loop_no_failure (P : Platform) :
  (forall tr p f fl, mapFn P tr p f fl = None) ->
  forall (fuel : nat) (cur last : Z) (tr : Trace) (pages : gset Z),
    (mapRegion_loop P fuel cur last tr pages).2 = None.
Proof.
  intros Hok. induction fuel as [|fuel IH]; intros cur last tr pages;
    cbn [mapRegion_loop]; [reflexivity|].
  destruct (cur <=? last); [|reflexivity].
  destruct (decide (cur ∈ pages)); [apply IH|].
  rewrite Hok. apply IH.
Qed.

Lemma mapRegion_no_failure (P : Platform) (drv : acpiDriver)
    (startAddr size : Z) (tr : Trace) :
  (forall tr p f fl, mapFn P tr p f fl = None) ->
  (mapRegion P drv startAddr size tr).2 = None.
Proof.
  intros Hok. unfold mapRegion.
  pose proof (mapRegion_loop_no_failure P Hok
                (Z.to_nat (mapRegion_last P startAddr size
                           - mapRegion_first P startAddr + 1))
                (mapRegion_first P startAddr)
                (mapRegion_last P startAddr size) tr (mappedPages drv)) as H.
  destruct (mapRegion_loop P _ _ _ tr (mappedPages drv)) as [[tr1 pages1] e].
  exact H.
Qed.

Lemma mapACPITable_total_mapFn (P : Platform) (m : Memory)
    (drv : acpiDriver) (tableAddr : Z) (tr : Trace) :
  (forall tr p f fl, mapFn P tr p f fl = None) ->
  exists (tr' : Trace) (drv' : acpiDriver),
    mapACPITable P m drv tableAddr tr
    = (tr', drv',
       if validTable m tableAddr (sdtHeader.length m tableAddr)
       then (tableAddr, sdtHeader.sizeof, None)
       else (0, sdtHeader.sizeof, Some errTableChecksumMismatch)).
Proof.
  intros Hok. unfold mapACPITable.
  pose proof (mapRegion_no_failure P drv tableAddr sdtHeader.sizeof tr Hok)
    as H1.
  destruct (mapRegion P drv tableAddr sdtHeader.sizeof tr)
    as [[tr1 drv1] e1]. cbn in H1. subst e1.
  pose proof (mapRegion_no_failure P drv1 tableAddr
                (sdtHeader.length m tableAddr) tr1 Hok) as H2.
  destruct (mapRegion P drv1 tableAddr (sdtHeader.length m tableAddr) tr1)
    as [[tr2 drv2] e2]. cbn in H2. subst e2.
  exists tr2, drv2.
  destruct (validTable m tableAddr (sdtHeader.length m tableAddr));
    reflexivity.
Qed.

(** On a machine whose [mapFn] never fails, [mapACPITable] is decided by
    the checksum alone: it returns the table address as header when
    [validTable] accepts the declared length, and the checksum mismatch
    otherwise.  Nothing else about the header is checked; in particular
    a declared length of 0, whose empty sum is zero, is accepted. *)
Theorem mapACPITable_decided_by_checksum (P : Platform) (m : Memory)
    (drv : acpiDriver) (tableAddr : Z) (tr : Trace) :
  (forall tr p f fl, mapFn P tr p f fl = None) ->
  (mapACPITable P m drv tableAddr tr).2
  = (if validTable m tableAddr (sdtHeader.length m tableAddr)
     then (tableAddr, sdtHeader.sizeof, None)
     else (0, sdtHeader.sizeof, Some errTableChecksumMismatch))
  /\ (sdtHeader.length m tableAddr = 0 ->
      (mapACPITable P m drv tableAddr tr).2
      = (tableAddr, sdtHeader.sizeof, None)).
Proof.
  intros Hok.
  destruct (mapACPITable_total_mapFn P m drv tableAddr tr Hok)
    as (tr' & drv' & Hres).
  rewrite Hres. cbn [snd]. split; [reflexivity|].
  intros HL. rewrite HL.
  assert (Hempty : validTable m tableAddr 0 = true) by reflexivity.
  rewrite Hempty. reflexivity.
Qed.

Lemma mapACPITable_decided_by_checksum_witness :
  (forall tr p f fl, mapFn vmmOk tr p f fl = None)
  /\ (mapACPITable vmmOk memRsdt (emptyDriver 0x1000 false) 0x1040 []).2
     = (if validTable memRsdt 0x1040 (sdtHeader.length memRsdt 0x1040)
        then (0x1040, sdtHeader.sizeof, None)
        else (0, sdtHeader.sizeof, Some errTableChecksumMismatch))
  /\ (sdtHeader.length memRsdt 0x1040 = 0 ->
      (mapACPITable vmmOk memRsdt (emptyDriver 0x1000 false) 0x1040 []).2
      = (0x1040, sdtHeader.sizeof, None)).
Proof.
  assert (H : forall tr p f fl, mapFn vmmOk tr p f fl = None)
    by (intros; reflexivity).
  split; [exact H|].
  exact (mapACPITable_decided_by_checksum vmmOk memRsdt
           (emptyDriver 0x1000 false) 0x1040 [] H).
Defined.

(** ** Further properties of the root table walker *)

(** On a machine whose [mapFn] never fails, the walk over the sub-table
    addresses returns no error and reports exactly the addresses whose
    table passes its checksum, in the order of the address list, each
    with the signature and the length read from its header. *)
Theorem parseRSDT_visit_reports_valid_tables (P : Platform) (m : Memory) :
  (forall tr p f fl, mapFn P tr p f fl = None) ->
  forall (addrs : list Z) (drv : acpiDriver) (tr : Trace),
    (parseRSDT_visit P m addrs drv tr).2 = None
    /\ foundTables (parseRSDT_visit P m addrs drv tr).1.1
       = foundTables tr
         ++ List.map
              (fun a => (sdtHeader.signature m a, a, sdtHeader.length m a))
              (List.filter
                 (fun a => validTable m a (sdtHeader.length m a)) addrs).
Proof.
  intros Hok. induction addrs as [|addr rest IH]; intros drv tr.
  - cbn. rewrite app_nil_r. split; reflexivity.
  - cbn [parseRSDT_visit List.filter].
    destruct (mapACPITable_total_mapFn P m drv addr tr Hok)
      as (tr0 & drv0 & Hres0).
    assert (Hres : (mapACPITable P m drv addr tr).2
                   = (if validTable m addr (sdtHeader.length m addr)
                      then (addr, sdtHeader.sizeof, None)
                      else (0, sdtHeader.sizeof,
                            Some errTableChecksumMismatch)))
      by (rewrite Hres0; reflexivity).
    clear Hres0.
    destruct (mapACPITable P m drv addr tr) as [[tr1 drv1] [[h sz] e]] eqn:Hm.
    pose proof (mapACPITable_spec _ _ _ _ _ _ _ _ _ _ Hm)
      as ((ev & (-> & _) & Hf) & _).
    cbn [snd] in Hres.
    destruct (validTable m addr (sdtHeader.length m addr));
      inversion Hres; subst.
    + destruct (IH drv1 ((tr ++ ev)
                         ++ [EvFound (sdtHeader.signature m addr) addr
                               (sdtHeader.length m addr)])) as [He Hfound].
      split; [exact He|]. rewrite Hfound.
      rewrite !foundTables_app, Hf, app_nil_r, <- app_assoc. reflexivity.
    + rewrite decide_True by reflexivity.
      destruct (IH drv1 (tr ++ ev)) as [He Hfound].
      split; [exact He|]. rewrite Hfound.
      rewrite foundTables_app, Hf, app_nil_r. reflexivity.
Qed.

Lemma parseRSDT_visit_reports_valid_tables_witness :
  (forall tr p f fl, mapFn vmmOk tr p f fl = None)
  /\ (parseRSDT_visit vmmOk memRsdt [0x1040; 0x1080]
        (driverAfterRoot false) traceAfterRoot).2 = None
  /\ foundTables (parseRSDT_visit vmmOk memRsdt [0x1040; 0x1080]
                    (driverAfterRoot false) traceAfterRoot).1.1
     = foundTables traceAfterRoot
       ++ List.map
            (fun a => (sdtHeader.signature memRsdt a, a,
                       sdtHeader.length memRsdt a))
            (List.filter
               (fun a => validTable memRsdt a (sdtHeader.length memRsdt a))
               [0x1040; 0x1080]).
Proof.
  assert (H : forall tr p f fl, mapFn vmmOk tr p f fl = None)
    by (intros; reflexivity).
  split; [exact H|].
  exact (parseRSDT_visit_reports_valid_tables vmmOk memRsdt H
           [0x1040; 0x1080] (driverAfterRoot false) traceAfterRoot).
Defined.

(** ** Further properties of the root pointer locator *)

Lemma candidate_accepts (m : Memory) (p addr : Z) (xsdt : bool) :
  candidate m p = Some (addr, xsdt) ->
  signatureMatches m rsdtSignature p = true
  /\ (if xsdt
      then rsdpDescriptor.revision m p <> 0
           /\ validTable m p rsdpDescriptor2.sizeof = true
           /\ addr = rsdpDescriptor2.xsdtAddr m p
      else rsdpDescriptor.revision m p = 0
           /\ validTable m p rsdpDescriptor.sizeof = true
           /\ addr = rsdpDescriptor.rsdtAddr m p).
Proof.
  unfold candidate.
  destruct (signatureMatches m rsdtSignature p); cbn [negb]; [|discriminate].
  destruct (rsdpDescriptor.revision m p =? rsdpRevisionACPI1) eqn:Hrev.
  - apply Z.eqb_eq in Hrev.
    change (wrap32 rsdpDescriptor.sizeof) with rsdpDescriptor.sizeof.
    destruct (validTable m p rsdpDescriptor.sizeof); cbn [negb];
      [|discriminate].
    intros H. inversion H; subst. split; [reflexivity|].
    split; [exact Hrev|]. split; reflexivity.
  - apply Z.eqb_neq in Hrev.
    change (wrap32 rsdpDescriptor2.sizeof) with rsdpDescriptor2.sizeof.
    destruct (validTable m p rsdpDescriptor2.sizeof); cbn [negb];
      [|discriminate].
    intros H. inversion H; subst. split; [reflexivity|].
    split; [exact Hrev|]. split; reflexivity.
Qed.

Lemma locateRSDT_scan_inv (m : Memory) :
  forall (fuel : nat) (j : Z) (res : Z * bool * option Error),
    0 <= j -> j + Z.of_nat fuel <= 8192 ->
    locateRSDT_scan m fuel (candidateAddr j) = res ->
    (res = (0, false, Some errMissingRSDP)
     /\ forall i, j <= i < j + Z.of_nat fuel ->
                  candidate m (candidateAddr i) = None)
    \/ (exists (k addr : Z) (xsdt : bool),
           res = (addr, xsdt, None)
           /\ j <= k < j + Z.of_nat fuel
           /\ (forall i, j <= i < k -> candidate m (candidateAddr i) = None)
           /\ candidate m (candidateAddr k) = Some (addr, xsdt)).
Proof.
  induction fuel as [|fuel IH]; intros j res Hj Hfuel H.
  - cbn in H. subst res. left. split; [reflexivity|]. intros i Hi. lia.
  - rewrite locateRSDT_scan_step in H.
    destruct (candidateAddr_next j ltac:(lia)) as [Hguard Hnext].
    rewrite Hguard, Hnext in H.
    destruct (candidate m (candidateAddr j)) as [[addr xsdt]|] eqn:Hc.
    + right. exists j, addr, xsdt. subst res.
      split; [reflexivity|]. split; [lia|]. split; [intros i Hi; lia|].
      exact Hc.
    + destruct (IH (j + 1) res ltac:(lia) ltac:(lia) H)
        as [[Hres Hall]|(k & addr & xsdt & Hres & Hk & Hrej & Hacc)].
      * left. split; [exact Hres|]. intros i Hi.
        destruct (Z.eq_dec i j) as [->|]; [exact Hc | apply Hall; lia].
      * right. exists k, addr, xsdt. split; [exact Hres|]. split; [lia|].
        split; [|exact Hacc]. intros i Hi.
        destruct (Z.eq_dec i j) as [->|]; [exact Hc | apply Hrej; lia].
Qed.

Lemma candidateAddr_0 : rsdpLocationLow = candidateAddr 0.
Proof. reflexivity. Qed.

Lemma windowCandidates_Z : Z.of_nat windowCandidates = 8192.
Proof. vm_compute. reflexivity. Qed.

(** The scan over the whole window either rejects every candidate and
    reports the missing root pointer, or returns the verdict of the
    first candidate that is accepted. *)
Lemma locateRSDT_scan_window (m : Memory) (res : Z * bool * option Error) :
  locateRSDT_scan m windowCandidates rsdpLocationLow = res ->
  (res = (0, false, Some errMissingRSDP)
   /\ forall i, 0 <= i < 8192 -> candidate m (candidateAddr i) = None)
  \/ (exists (k addr : Z) (xsdt : bool),
         res = (addr, xsdt, None)
         /\ 0 <= k < 8192
         /\ (forall i, 0 <= i < k -> candidate m (candidateAddr i) = None)
         /\ candidate m (candidateAddr k) = Some (addr, xsdt)).
Proof.
  rewrite candidateAddr_0. intros H.
  pose proof windowCandidates_Z as HW.
  apply locateRSDT_scan_inv in H; [|lia|lia].
  rewrite HW in H. exact H.
Qed.

(** A failure of the mapping phase is what [locateRSDT] returns. *)
Lemma locateRSDT_map_error (P : Platform) (m : Memory) (tr : Trace)
    (e : Error) :
  (locateRSDT_map P (windowPages P) (PageFromAddress P rsdpLocationLow)
     (PageFromAddress P rsdpLocationHi) tr).2 = Some e ->
  (locateRSDT P m tr).2 = (0, false, Some e).
Proof.
  unfold locateRSDT. intros He.
  destruct (locateRSDT_map P (windowPages P) _ _ tr) as [tr1 r].
  cbn in He. subst r. reflexivity.
Qed.

(** [locateRSDT] never makes an address up: when it succeeds, the
    address it returns is read from a candidate of the scan window that
    has the signature and a valid checksum, no earlier candidate was
    accepted, and the flag tells which structure was validated: the
    20-byte one of revision 0 (flag cleared, 32-bit address) or the
    40-byte one of any other revision (flag set, 64-bit address). *)
Theorem locateRSDT_sound (P : Platform) (m : Memory) (tr : Trace)
    (addr : Z) (xsdt : bool) :
  (locateRSDT P m tr).2 = (addr, xsdt, None) ->
  exists k : Z,
    0 <= k < 8192
    /\ (forall j, 0 <= j < k -> candidate m (candidateAddr j) = None)
    /\ signatureMatches m rsdtSignature (candidateAddr k) = true
    /\ (if xsdt
        then rsdpDescriptor.revision m (candidateAddr k) <> 0
             /\ validTable m (candidateAddr k) rsdpDescriptor2.sizeof = true
             /\ addr = rsdpDescriptor2.xsdtAddr m (candidateAddr k)
        else rsdpDescriptor.revision m (candidateAddr k) = 0
             /\ validTable m (candidateAddr k) rsdpDescriptor.sizeof = true
             /\ addr = rsdpDescriptor.rsdtAddr m (candidateAddr k)).
Proof.
  intros H.
  destruct ((locateRSDT_map P (windowPages P)
               (PageFromAddress P rsdpLocationLow)
               (PageFromAddress P rsdpLocationHi) tr).2) as [e|] eqn:E.
  { rewrite (locateRSDT_map_error P m tr e E) in H. discriminate. }
  rewrite (locateRSDT_result P m tr E) in H.
  destruct (locateRSDT_scan_window m _ H)
    as [[Hres _]|(k & addr' & xsdt' & Hres & Hk & Hrej & Hacc)];
    [discriminate|].
  inversion Hres; subst addr' xsdt'.
  exists k. split; [exact Hk|].
  split; [exact Hrej|]. apply candidate_accepts. exact Hacc.
Qed.

Lemma locateRSDT_sound_witness :
  (locateRSDT vmmOk memRsdpV2 []).2 = (0x2000, true, None)
  /\ exists k : Z,
       0 <= k < 8192
       /\ (forall j, 0 <= j < k ->
                     candidate memRsdpV2 (candidateAddr j) = None)
       /\ signatureMatches memRsdpV2 rsdtSignature (candidateAddr k) = true
       /\ rsdpDescriptor.revision memRsdpV2 (candidateAddr k) <> 0
       /\ validTable memRsdpV2 (candidateAddr k) rsdpDescriptor2.sizeof = true
       /\ 0x2000 = rsdpDescriptor2.xsdtAddr memRsdpV2 (candidateAddr k).
Proof.
  assert (H : (locateRSDT vmmOk memRsdpV2 []).2 = (0x2000, true, None))
    by (vm_compute; reflexivity).
  split; [exact H|].
  exact (locateRSDT_sound vmmOk memRsdpV2 [] 0x2000 true H).
Defined.

(** Once the scan window is mapped, [locateRSDT] fails with the missing
    root pointer if and only if every one of the 8192 candidates, at the
    multiples of 16 from 0xe0000 to 0xffff0, is rejected; and an error
    of [locateRSDT] always comes with address 0 and the flag cleared. *)
Theorem locateRSDT_missing_iff (P : Platform) (m : Memory) (tr : Trace) :
  (locateRSDT_map P (windowPages P) (PageFromAddress P rsdpLocationLow)
     (PageFromAddress P rsdpLocationHi) tr).2 = None ->
  ((locateRSDT P m tr).2 = (0, false, Some errMissingRSDP)
   <-> forall k, 0 <= k < 8192 -> candidate m (candidateAddr k) = None)
  /\ (forall a x e, (locateRSDT P m tr).2 = (a, x, Some e) ->
                    a = 0 /\ x = false /\ e = errMissingRSDP).
Proof.
  intros Hmap. rewrite locateRSDT_result by exact Hmap.
  pose proof (locateRSDT_scan_window m _ eq_refl) as Hinv.
  split; [split|].
  - intros Hres.
    destruct Hinv as [[_ Hall]|(k & addr & xsdt & Hres' & _)];
      [intros k Hk; apply Hall; lia|].
    rewrite Hres in Hres'. discriminate.
  - intros Hall. rewrite <- (Nat.add_0_r windowCandidates).
    apply locateRSDT_scan_none. exact Hall.
  - intros a x e Hres.
    destruct Hinv as [[Hres' _]|(k & addr & xsdt & Hres' & _)];
      rewrite Hres in Hres'; inversion Hres'; subst; repeat split.
Qed.

Lemma locateRSDT_missing_iff_witness :
  (locateRSDT_map vmmOk (windowPages vmmOk)
     (PageFromAddress vmmOk rsdpLocationLow)
     (PageFromAddress vmmOk rsdpLocationHi) []).2 = None
  /\ ((locateRSDT vmmOk memZero []).2 = (0, false, Some errMissingRSDP)
      <-> forall k, 0 <= k < 8192 -> candidate memZero (candidateAddr k) = None).
Proof.
  assert (H : (locateRSDT_map vmmOk (windowPages vmmOk)
                 (PageFromAddress vmmOk rsdpLocationLow)
                 (PageFromAddress vmmOk rsdpLocationHi) []).2 = None)
    by (vm_compute; reflexivity).
  split; [exact H|].
  exact (proj1 (locateRSDT_missing_iff vmmOk memZero [] H)).
Defined.

Lemma locateRSDT_map_same (P P' : Platform) :
  mapFn P = mapFn P' ->
  forall (fuel : nat) (cur last : Z) (tr : Trace),
    locateRSDT_map P fuel cur last tr = locateRSDT_map P' fuel cur last tr.
Proof.
  intros Hm. induction fuel as [|fuel IH]; intros cur last tr;
    cbn [locateRSDT_map]; [reflexivity|].
  rewrite Hm. destruct (cur <=? last); [|reflexivity].
  destruct (mapFn P' tr cur cur FlagPresent); [reflexivity|]. apply IH.
Qed.

(** What [locateRSDT] returns does not depend on [unmapFn]: the errors
    of the deferred unmapping are dropped, so two machines with the same
    page size and the same [mapFn] give the same address, flag and
    error, however their [unmapFn] behaves. *)
Theorem locateRSDT_ignores_unmap_errors (P P' : Platform) (m : Memory)
    (tr : Trace) :
  PageShift P = PageShift P' -> mapFn P = mapFn P' ->
  (locateRSDT P m tr).2 = (locateRSDT P' m tr).2.
Proof.
  intros Hs Hm.
  assert (Hmap : locateRSDT_map P (windowPages P)
                   (PageFromAddress P rsdpLocationLow)
                   (PageFromAddress P rsdpLocationHi) tr
                 = locateRSDT_map P' (windowPages P')
                     (PageFromAddress P' rsdpLocationLow)
                     (PageFromAddress P' rsdpLocationHi) tr).
  { unfold windowPages, PageFromAddress, PageSize. rewrite Hs.
    apply locateRSDT_map_same. exact Hm. }
  destruct ((locateRSDT_map P (windowPages P)
               (PageFromAddress P rsdpLocationLow)
               (PageFromAddress P rsdpLocationHi) tr).2) as [e|] eqn:E.
  - rewrite (locateRSDT_map_error P m tr e E).
    rewrite Hmap in E. rewrite (locateRSDT_map_error P' m tr e E).
    reflexivity.
  - rewrite (locateRSDT_result P m tr E).
    rewrite Hmap in E. rewrite (locateRSDT_result P' m tr E). reflexivity.
Qed.

(** On [vmmUnmapAlwaysFails] each of the 32 unmap calls of the scan
    window fails, and [locateRSDT] returns what it returns on [vmmOk]. *)
Lemma locateRSDT_ignores_unmap_errors_witness :
  PageShift vmmOk = PageShift vmmUnmapAlwaysFails
  /\ mapFn vmmOk = mapFn vmmUnmapAlwaysFails
  /\ unmapFailures (locateRSDT vmmOk memRsdpV1 []).1 = []
  /\ unmapFailures (locateRSDT vmmUnmapAlwaysFails memRsdpV1 []).1
     = seqZ 224 32
  /\ (locateRSDT vmmUnmapAlwaysFails memRsdpV1 []).2 = (0x1000, false, None)
  /\ (locateRSDT vmmOk memRsdpV1 []).2
     = (locateRSDT vmmUnmapAlwaysFails memRsdpV1 []).2.
Proof.
  split; [reflexivity|]. split; [reflexivity|].
  split; [vm_compute; reflexivity|].
  split; [vm_compute; reflexivity|].
  split; [vm_compute; reflexivity|].
  exact (locateRSDT_ignores_unmap_errors vmmOk vmmUnmapAlwaysFails
           memRsdpV1 [] eq_refl eq_refl).
Defined.

Lemma wrap64_add_l (p i : Z) : wrap64 (wrap64 p + i) = wrap64 (p + i).
Proof. unfold wrap64. apply Zplus_mod_idemp_l. Qed.

Lemma loadLE_frame (m m' : Memory) :
  forall (n : nat) (p : Z),
    (forall i, 0 <= i < Z.of_nat n ->
               m (wrap64 (p + i)) = m' (wrap64 (p + i))) ->
    loadLE m n (wrap64 p) = loadLE m' n (wrap64 p).
Proof.
  induction n as [|n IH]; intros p H; cbn [loadLE]; [reflexivity|].
  assert (H0 : m (wrap64 p) = m' (wrap64 p)).
  { specialize (H 0 ltac:(lia)). rewrite Z.add_0_r in H. exact H. }
  unfold load8. rewrite H0. f_equal. f_equal.
  rewrite wrap64_add_l. apply IH. intros i Hi.
  replace (p + 1 + i) with (p + (1 + i)) by lia. apply H. lia.
Qed.

Lemma signatureMatches_frame (m m' : Memory) :
  forall (sig : list byte) (p : Z),
    (forall i, 0 <= i < Z.of_nat (List.length sig) ->
               m (wrap64 (p + i)) = m' (wrap64 (p + i))) ->
    signatureMatches m sig (wrap64 p) = signatureMatches m' sig (wrap64 p).
Proof.
  induction sig as [|b sig IH]; intros p H; cbn [signatureMatches];
    [reflexivity|].
  assert (H0 : m (wrap64 p) = m' (wrap64 p)).
  { specialize (H 0 ltac:(cbn [List.length]; lia)).
    rewrite Z.add_0_r in H. exact H. }
  rewrite H0. destruct (Byte.eqb (m' (wrap64 p)) b); [|reflexivity].
  rewrite wrap64_add_l. apply IH. intros i Hi.
  replace (p + 1 + i) with (p + (1 + i)) by lia. apply H.
  cbn [List.length]. lia.
Qed.

Lemma validTable_frame (m m' : Memory) (p len : Z) :
  0 <= len < 2 ^ 32 ->
  (forall i, 0 <= i < len -> m (wrap64 (p + i)) = m' (wrap64 (p + i))) ->
  validTable m p len = validTable m' p len.
Proof.
  intros Hlen H. rewrite !validTable_eq by exact Hlen.
  rewrite (byteSum_frame m m' p (Z.to_nat len) 0); [reflexivity|].
  intros j Hj. apply H. lia.
Qed.

(** The verdict on a candidate depends on its 40 bytes only. *)
Lemma candidate_frame (m m' : Memory) (p : Z) :
  (forall i, 0 <= i < 40 -> m (wrap64 (p + i)) = m' (wrap64 (p + i))) ->
  candidate m (wrap64 p) = candidate m' (wrap64 p).
Proof.
  intros H. unfold candidate.
  assert (Hsig : signatureMatches m rsdtSignature (wrap64 p)
                 = signatureMatches m' rsdtSignature (wrap64 p)).
  { apply signatureMatches_frame. intros i Hi. apply H. cbn in Hi. lia. }
  assert (Hrev : rsdpDescriptor.revision m (wrap64 p)
                 = rsdpDescriptor.revision m' (wrap64 p)).
  { unfold rsdpDescriptor.revision, load8. rewrite wrap64_add_l.
    rewrite (H 15) by lia. reflexivity. }
  assert (Hv : forall len, 0 <= len <= 40 ->
                 validTable m (wrap64 p) len = validTable m' (wrap64 p) len).
  { intros len Hlen. apply validTable_frame; [lia|]. intros i Hi.
    rewrite wrap64_add_l. apply H. lia. }
  assert (H1 : rsdpDescriptor.rsdtAddr m (wrap64 p)
               = rsdpDescriptor.rsdtAddr m' (wrap64 p)).
  { unfold rsdpDescriptor.rsdtAddr, load32. rewrite wrap64_add_l.
    apply loadLE_frame. intros i Hi.
    replace (p + 16 + i) with (p + (16 + i)) by lia. apply H. lia. }
  assert (H2 : rsdpDescriptor2.xsdtAddr m (wrap64 p)
               = rsdpDescriptor2.xsdtAddr m' (wrap64 p)).
  { unfold rsdpDescriptor2.xsdtAddr, load64. rewrite wrap64_add_l.
    apply loadLE_frame. intros i Hi.
    replace (p + 24 + i) with (p + (24 + i)) by lia. apply H. lia. }
  change (wrap32 rsdpDescriptor.sizeof) with 20.
  change (wrap32 rsdpDescriptor2.sizeof) with 40.
  rewrite Hsig, Hrev, (Hv 20), (Hv 40), H1, H2 by lia. reflexivity.
Qed.

Lemma candidateAddr_wrap (k : Z) :
  0 <= k < 8192 -> wrap64 (candidateAddr k) = candidateAddr k.
Proof.
  unfold candidateAddr, rsdpLocationLow, wrap64. intros H.
  apply Z.mod_small. lia.
Qed.

Lemma locateRSDT_scan_frame (m m' : Memory) :
  (forall a, rsdpLocationLow <= a < 0x100018 -> m a = m' a) ->
  forall (fuel : nat) (j : Z),
    0 <= j -> j + Z.of_nat fuel <= 8192 ->
    locateRSDT_scan m fuel (candidateAddr j)
    = locateRSDT_scan m' fuel (candidateAddr j).
Proof.
  intros Hagree. induction fuel as [|fuel IH]; intros j Hj Hfuel;
    [reflexivity|].
  rewrite !locateRSDT_scan_step.
  destruct (candidateAddr_next j ltac:(lia)) as [-> ->].
  assert (Hc : candidate m (candidateAddr j) = candidate m' (candidateAddr j)).
  { rewrite <- (candidateAddr_wrap j) by lia. apply candidate_frame.
    intros i Hi.
    assert (Hw : wrap64 (candidateAddr j + i) = candidateAddr j + i).
    { unfold candidateAddr, rsdpLocationLow, wrap64. apply Z.mod_small. lia. }
    rewrite Hw. apply Hagree. unfold candidateAddr, rsdpLocationLow. lia. }
  rewrite Hc. destruct (candidate m' (candidateAddr j)) as [[a x]|];
    [reflexivity|]. apply IH; lia.
Qed.

(** [locateRSDT] reads memory from 0xe0000 up to, but not including,
    0x100018 and nowhere else: two memories that agree there give the
    same trace and the same result.  The window that it maps ends at
    0xfffff, and the bytes after it do matter: two memories that agree
    on the whole window can give different results. *)
Theorem locateRSDT_reads_past_window (P : Platform) (m m' : Memory)
    (tr : Trace) :
  ((forall a, rsdpLocationLow <= a < 0x100018 -> m a = m' a) ->
   locateRSDT P m tr = locateRSDT P m' tr)
  /\ (forall a, rsdpLocationLow <= a <= rsdpLocationHi ->
                memRsdpAtEnd a = memRsdpAtEndChanged a)
  /\ (locateRSDT vmmOk memRsdpAtEnd []).2 = (0x1000, false, None)
  /\ (locateRSDT vmmOk memRsdpAtEndChanged []).2
     = (0, false, Some errMissingRSDP).
Proof.
  split; [|split; [|split]].
  - intros Hagree.
    assert (Hscan : locateRSDT_scan m windowCandidates rsdpLocationLow
                    = locateRSDT_scan m' windowCandidates rsdpLocationLow).
    { rewrite candidateAddr_0. apply locateRSDT_scan_frame;
        [exact Hagree | lia | rewrite windowCandidates_Z; lia]. }
    unfold locateRSDT. rewrite Hscan. reflexivity.
  - intros a Ha. unfold memRsdpAtEndChanged, store8.
    replace (a =? 0x100001) with false; [reflexivity|].
    symmetry. apply Z.eqb_neq. unfold rsdpLocationHi in Ha. lia.
  - vm_compute. reflexivity.
  - vm_compute. reflexivity.
Qed.

(** ** Further properties of the address list *)

Lemma readAddresses_range (m : Memory) (width : nat) :
  forall (n : nat) (curPtr : Z),
    Forall (fun a => 0 <= a < 2 ^ (8 * Z.of_nat width))
           (readAddresses m width n curPtr).
Proof.
  induction n as [|n IH]; intros curPtr; cbn [readAddresses];
    constructor; [apply loadLE_range | apply IH].
Qed.

(** Every address the walker takes from the root table is a machine
    word of the entry width: below 2^32 when the RSDT is used (a 32-bit
    entry is zero-extended), below 2^64 with the XSDT. *)
Theorem sdtAddresses_range (m : Memory) (drv : acpiDriver)
    (header sizeofHeader : Z) :
  Forall (fun a => 0 <= a < (if useXSDT drv then 2 ^ 64 else 2 ^ 32))
         (sdtAddresses m drv header sizeofHeader).
Proof.
  unfold sdtAddresses. destruct (useXSDT drv).
  - apply (readAddresses_range m 8).
  - apply (readAddresses_range m 4).
Qed.


